(** * Project Euler 92 (src/p92.cpp): square-digit chains

    A shallow embedding of [p92.cpp] and the properties of its four
    solution strategies.

    Conventions of the embedding
    - [u32] values are integers in [Z]; every arithmetic operation of the
      source that can wrap is followed by [wrap], reduction modulo 2^32.
    - Operations whose behaviour the language leaves undefined (a remainder
      or quotient by zero, [operator[]] past the size of a vector, the read
      of an array slot that was never written) yield an [Err] value.
    - [while(true)] loops take a [fuel] bound and yield [Err OutOfFuel] when
      it runs out; the theorems show that a modest bound is always enough. *)

From Stdlib Require Import ZArith List Lia Bool Arith Factorial Permutation.
Import ListNotations.

#[local] Open Scope Z_scope.

(** ** Results of fallible computations *)

Inductive error : Type :=
| DivByZero
| OutOfBounds
| Uninitialized
| OutOfFuel.

Inductive result (A : Type) : Type :=
| Ok (a : A)
| Err (e : error).

Arguments Ok {A} a.
Arguments Err {A} e.

Definition bind {A B : Type} (m : result A) (k : A -> result B) : result B :=
  match m with
  | Ok a => k a
  | Err e => Err e
  end.

Notation "x <- m ;; k" := (bind m (fun x => k))
  (at level 61, m at next level, right associativity).

(** ** Machine integers *)

Definition u32_modulus : Z := 2 ^ 32.

Definition wrap (z : Z) : Z := z mod u32_modulus.

Definition TEN_MILLION : Z := 10000000.

(** ** [power] and [squigit] (p92.cpp, lines 406-432) *)

(** [while(exp != 0) { ans *= base; --exp; }]: the loop body runs [exp]
    times. *)
Fixpoint power_loop (n : nat) (base ans : Z) : Z :=
  match n with
  | O => ans
  | S n' => power_loop n' base (wrap (ans * base))
  end.

Definition power (base exp : Z) : Z := power_loop (Z.to_nat exp) base 1.

(** One test of [while(val != 0)] and, when it holds, one run of the body. *)
Fixpoint squigit_loop (fuel : nat) (val ans i : Z) : result Z :=
  if val =? 0 then Ok ans
  else
    match fuel with
    | O => Err OutOfFuel
    | S fuel' =>
        let p := power 10 i in
        if p =? 0 then Err DivByZero
        else
          let mod_val := val mod p in
          let val' := wrap (val - mod_val) in
          let q := power 10 (wrap (i - 1)) in
          if q =? 0 then Err DivByZero
          else
            let ans' := wrap (ans + wrap ((mod_val / q) * (mod_val / q))) in
            squigit_loop fuel' val' ans' (wrap (i + 1))
    end.

(** [i] grows by one in each iteration and [power 10 i] is 0 from [i = 32]
    on, so 32 iterations decide the loop one way or the other;
    see [squigit_loop_fuel]. *)
Definition squigit_fuel : nat := 32.

Definition squigit (val : Z) : result Z := squigit_loop squigit_fuel val 0 1.

(** ** The sum of the squared decimal digits, as the specification words it *)

(** The sum of the squares of the [k] lowest decimal digits of [n]. *)
Fixpoint digit_squares (k : nat) (n : Z) : Z :=
  match k with
  | O => 0
  | S k' => (n mod 10) * (n mod 10) + digit_squares k' (n / 10)
  end.

(** A 32-bit value has at most ten decimal digits. *)
Definition sum_of_squared_digits (n : Z) : Z := digit_squares 10 n.

(** ** Loops and containers *)

(** [for(u32 i = lo; i < hi; ++i) body]: [n] iterations are left to run and
    the loop variable is [i].  The bounds of the program are far below 2^32,
    so [++i] never wraps. *)
Fixpoint for_loop {S : Type} (n : nat) (i : Z)
    (body : Z -> S -> result S) (s : S) : result S :=
  match n with
  | O => Ok s
  | S n' => s' <- body i s ;; for_loop n' (i + 1) body s'
  end.

Definition for_range {S : Type} (lo hi : Z)
    (body : Z -> S -> result S) (s : S) : result S :=
  for_loop (Z.to_nat (hi - lo)) lo body s.

(** A range-based [for] over a vector. *)
Fixpoint for_each {A S : Type} (l : list A)
    (body : A -> S -> result S) (s : S) : result S :=
  match l with
  | [] => Ok s
  | a :: l' => s' <- body a s ;; for_each l' body s'
  end.

(** [v[i]] on a [std::vector] or a built-in array whose elements are the
    list [v]: defined only below the size.  Indices are unsigned. *)
Definition vec_get {A : Type} (v : list A) (i : Z) : result A :=
  match nth_error v (Z.to_nat i) with
  | Some a => Ok a
  | None => Err OutOfBounds
  end.

Fixpoint list_update {A : Type} (v : list A) (n : nat) (a : A) : list A :=
  match v, n with
  | [], _ => []
  | _ :: v', O => a :: v'
  | x :: v', S n' => x :: list_update v' n' a
  end.

Definition vec_set {A : Type} (v : list A) (i : Z) (a : A) : result (list A) :=
  if (Z.to_nat i <? length v)%nat then Ok (list_update v (Z.to_nat i) a)
  else Err OutOfBounds.

(** [v.reserve(n)] may change the capacity of [v]; its size and its elements
    stay as they are. *)
Definition reserve {A : Type} (v : list A) (n : Z) : list A := v.

(** A local [bool t[1024]] without initialiser: a slot holds [None] until it
    is first written, and reading such a slot is an error. *)
Definition bool_array : Type := list (option bool).

Definition uninitialized_array (n : nat) : bool_array := repeat None n.

Definition arr_get (t : bool_array) (i : Z) : result bool :=
  slot <- vec_get t i ;;
  match slot with
  | Some b => Ok b
  | None => Err Uninitialized
  end.

Definition arr_set (t : bool_array) (i : Z) (b : bool) : result bool_array :=
  vec_set t i (Some b).

(** ** Strategy 1: brute force (lines 82-124) *)

Module BruteForceMethod.

(** The [while(true)] of lines 91-104; the result is the counter
    [numbers_ending_with_89] at the [break]. *)
Fixpoint chain_while (fuel : nat)
    (current_chain_number numbers_ending_with_89 chain_length : Z) : result Z :=
  match fuel with
  | O => Err OutOfFuel
  | S fuel' =>
      val <- squigit current_chain_number ;;
      if val =? 89 then Ok (wrap (numbers_ending_with_89 + 1))
      else if val =? 1 then Ok numbers_ending_with_89
      else chain_while fuel' val numbers_ending_with_89 (wrap (chain_length + 1))
  end.

Definition solve (fuel : nat) : result Z :=
  for_range 1 TEN_MILLION
    (fun i numbers_ending_with_89 => chain_while fuel i numbers_ending_with_89 0)
    0.

End BruteForceMethod.

(** ** Strategy 2: brute force with two caches (lines 128-177) *)

Module BruteForceMethodCached.

Record state : Type := mkState {
  numbers_that_goto_89 : list bool;
  numbers_that_goto_1 : list bool;
  numbers_ending_with_89 : Z
}.

(** Lines 132-136: both vectors are built from the initialiser list
    [{false}] and then only reserved. *)
Definition initial_state : state :=
  mkState (reserve [false] 567) (reserve [false] 567) 0.

(** The [while(true)] of lines 144-157.  The result is [goes_to_1] and
    [chain_numbers] at the [break].  [||] evaluates its right operand only
    when the left one is false. *)
Fixpoint chain_while (fuel : nat) (st : state)
    (current_chain_number : Z) (chain_numbers : list Z) : result (bool * list Z) :=
  match fuel with
  | O => Err OutOfFuel
  | S fuel' =>
      val <- squigit current_chain_number ;;
      to_89 <- (if val =? 89 then Ok true
                else vec_get (numbers_that_goto_89 st) val) ;;
      if to_89 then Ok (false, chain_numbers)
      else
        to_1 <- (if val =? 1 then Ok true
                 else vec_get (numbers_that_goto_1 st) val) ;;
        if to_1 then Ok (true, chain_numbers)
        else chain_while fuel' st val (chain_numbers ++ [val])
  end.

Definition mark_all (cache : list bool) (chain_numbers : list Z)
  : result (list bool) :=
  for_each chain_numbers (fun n c => vec_set c n true) cache.

Definition body (fuel : nat) (i : Z) (st : state) : result state :=
  r <- chain_while fuel st i [] ;;
  let (goes_to_1, chain_numbers) := r in
  if goes_to_1 then
    c1 <- mark_all (numbers_that_goto_1 st) chain_numbers ;;
    Ok (mkState (numbers_that_goto_89 st) c1 (numbers_ending_with_89 st))
  else
    c89 <- mark_all (numbers_that_goto_89 st) chain_numbers ;;
    Ok (mkState c89 (numbers_that_goto_1 st)
          (wrap (numbers_ending_with_89 st + 1))).

(** Lines 138-170: the loop and the [return], from a given state of the
    three locals. *)
Definition solve_from (st : state) (fuel : nat) : result Z :=
  st' <- for_range 1 TEN_MILLION (body fuel) st ;;
  Ok (numbers_ending_with_89 st').

Definition solve (fuel : nat) : result Z := solve_from initial_state fuel.

End BruteForceMethodCached.

(** ** The table [squigits_to_1] (lines 188-203 and 308-323) *)

(** The [while(true)] of lines 192-202, started at [val = i]: the value
    stored in slot [i]. *)
Fixpoint to_1_while (fuel : nat) (val : Z) : result bool :=
  match fuel with
  | O => Err OutOfFuel
  | S fuel' =>
      if val =? 1 then Ok true
      else if val =? 89 then Ok false
      else v <- squigit val ;; to_1_while fuel' v
  end.

(** [for(u32 i = 1; i <= 567; ++i)] over the uninitialised array. *)
Definition build_squigits_to_1 (fuel : nat) : result bool_array :=
  for_range 1 568
    (fun i t => b <- to_1_while fuel i ;; arr_set t i b)
    (uninitialized_array 1024).

(** ** Strategy 3: table lookup (lines 183-221) *)

Module SquigitsMethod.

Definition body (squigits_to_1 : bool_array) (i ans : Z) : result Z :=
  s <- squigit i ;;
  b <- arr_get squigits_to_1 s ;;
  if negb b then Ok (wrap (ans + 1)) else Ok ans.

Definition solve (fuel : nat) : result Z :=
  squigits_to_1 <- build_squigits_to_1 fuel ;;
  for_range 1 TEN_MILLION (body squigits_to_1) 0.

End SquigitsMethod.

(** ** Strategy 4: digit combinations (lines 233-366) *)

Module DigitsMethod.

(** [while(num != 1) { ans *= num; --num; }] runs [num - 1] times,
    modulo 2^32. *)
Fixpoint fact_loop (n : nat) (num ans : Z) : Z :=
  match n with
  | O => ans
  | S n' => fact_loop n' (wrap (num - 1)) (wrap (ans * num))
  end.

Definition fact (num : Z) : Z :=
  fact_loop (Z.to_nat (wrap (num - 1))) num 1.

Fixpoint remove_element (nums : list Z) (val : Z) : list Z :=
  match nums with
  | [] => []
  | x :: rest => if x =? val then rest else x :: remove_element rest val
  end.

(** The loop of lines 291-300; [sub] stands for the recursive call
    [combination(_, r - 1)]. *)
Fixpoint combination_loop (sub : list Z -> result (list (list Z)))
    (elements elements_to_use : list Z) (return_val : list (list Z))
  : result (list (list Z)) :=
  match elements with
  | [] => Ok return_val
  | element :: rest =>
      combos <- sub elements_to_use ;;
      combination_loop sub rest
        (remove_element elements_to_use element)
        (return_val ++ map (fun combo => combo ++ [element]) combos)
  end.

(** [fuel] bounds the depth of the recursion. *)
Fixpoint combination (fuel : nat) (elements : list Z) (r : Z)
  : result (list (list Z)) :=
  if r =? 1 then Ok (map (fun element => [element]) elements)
  else
    combination_loop
      (match fuel with
       | O => fun _ => Err OutOfFuel
       | S fuel' => fun e => combination fuel' e (wrap (r - 1))
       end)
      elements elements [].

Definition nums : list Z := [0; 1; 2; 3; 4; 5; 6; 7; 8; 9].

(** Lines 333-336. *)
Definition squigit_val (combo : list Z) : result Z :=
  for_each combo (fun num acc => s <- squigit num ;; Ok (wrap (acc + s))) 0.

(** Lines 344-347: [++duplicates[val]], and the array [duplicates] after
    the counting loop.  The counts stay far below the range of [int]. *)
Definition count_step (val : Z) (duplicates : list Z) : result (list Z) :=
  d <- vec_get duplicates val ;; vec_set duplicates val (d + 1).

Definition count_duplicates (combo : list Z) : result (list Z) :=
  for_each combo count_step (repeat 0 10).

(** Lines 350-352: one iteration of the dividing loop. *)
Definition divide_step (duplicates : list Z) (i starting_numbers : Z)
  : result Z :=
  d <- vec_get duplicates i ;;
  if 0 <? d then
    let f := fact (wrap d) in
    if f =? 0 then Err DivByZero else Ok (starting_numbers / f)
  else Ok starting_numbers.

(** Lines 340-353: [starting_numbers] when it is added to [ans]. *)
Definition starting_numbers (combo : list Z) : result Z :=
  duplicates <- count_duplicates combo ;;
  for_range 0 10 (divide_step duplicates)
    (fact (wrap (Z.of_nat (length combo)))).

(** The body of the loop of lines 332-357.  [&&] evaluates its right
    operand, the table lookup, only when [squigit_val != 0]. *)
Definition body (squigits_to_1 : bool_array) (combo : list Z) (ans : Z)
  : result Z :=
  sv <- squigit_val combo ;;
  if sv =? 0 then Ok ans
  else
    b <- arr_get squigits_to_1 sv ;;
    if negb b then
      sn <- starting_numbers combo ;;
      Ok (wrap (ans + sn))
    else Ok ans.

Definition solve (fuel : nat) : result Z :=
  squigits_to_1 <- build_squigits_to_1 fuel ;;
  combinations <- combination fuel nums 7 ;;
  for_each combinations (body squigits_to_1) 0.

End DigitsMethod.

(** ** Auxiliary definitions for the statements *)

(** The [n] consecutive integers from [lo] on. *)
Fixpoint zrange (n : nat) (lo : Z) : list Z :=
  match n with
  | O => []
  | S n' => lo :: zrange n' (lo + 1)
  end.

(** A bound on the iterations of the [while(true)] loops that always
    suffices. *)
Definition chain_fuel : nat := 12.

(** The table that the precomputation loop leaves behind. *)
Definition squigits_to_1 : bool_array :=
  Eval vm_compute in
  match build_squigits_to_1 chain_fuel return bool_array with
  | Ok t => t
  | Err _ => @nil (option bool)
  end.

(** [squigit] applied [n] times. *)
Fixpoint iterate_squigit (n : nat) (v : Z) : result Z :=
  match n with
  | O => Ok v
  | S n' => v' <- squigit v ;; iterate_squigit n' v'
  end.

(** ** Counting by digit-square sum *)

(** [f lo + f (lo + 1) + ...], [n] terms. *)
Fixpoint sum_range (n : nat) (lo : Z) (f : Z -> Z) : Z :=
  match n with
  | O => 0
  | S n' => f lo + sum_range n' (lo + 1) f
  end.

Definition over_digits (f : Z -> Z) : Z :=
  f 0 + f 1 + f 2 + f 3 + f 4 + f 5 + f 6 + f 7 + f 8 + f 9.

(** A histogram is the list of its counts; in [weighted_sum hist s g] the
    head of [hist] counts the value [s], the next one [s + 1], and so on. *)
Fixpoint weighted_sum (hist : list Z) (s : Z) (g : Z -> Z) : Z :=
  match hist with
  | [] => 0
  | c :: hist' => c * g s + weighted_sum hist' (s + 1) g
  end.

Fixpoint pointwise_add (a b : list Z) : list Z :=
  match a, b with
  | [], _ => b
  | _, [] => a
  | x :: a', y :: b' => (x + y) :: pointwise_add a' b'
  end.

Definition shift_by (n : nat) (hist : list Z) : list Z := repeat 0 n ++ hist.

(** The histogram of [d * d + s], for the ten digits [d] and [s] drawn from
    [hist]. *)
Definition add_digit (hist : list Z) : list Z :=
  fold_right (fun d acc => pointwise_add (shift_by (d * d) hist) acc) []
    [0; 1; 2; 3; 4; 5; 6; 7; 8; 9]%nat.

(** [histogram k]: how many of the numbers [0 .. 10^k - 1] have each
    digit-square sum. *)
Fixpoint histogram (k : nat) : list Z :=
  match k with
  | O => [1]
  | S k' => add_digit (histogram k')
  end.

(** 1 when the table classifies [s] as reaching 89, else 0. *)
Definition reaches_89 (s : Z) : Z :=
  match arr_get squigits_to_1 s with
  | Ok false => 1
  | _ => 0
  end.

(** The combinations that [combination(nums, 7)] returns. *)
Definition combinations_7 : list (list Z) :=
  Eval vm_compute in
  match DigitsMethod.combination 6 DigitsMethod.nums 7 return list (list Z) with
  | Ok l => l
  | Err _ => @nil (list Z)
  end.

(** ** The multiset-permutation count, as the specification words it *)

Definition digit (d : Z) : Prop := 0 <= d <= 9.

(** How often the digit [d] occurs in [combo]. *)
Definition repeat_count (combo : list Z) (d : Z) : nat :=
  count_occ Z.eq_dec combo d.

(** The product, over the digit values 0..9, of the factorial of the
    digit's repeat count. *)
Definition factorial_product (combo : list Z) : Z :=
  fold_right (fun d acc => Z.of_nat (fact (repeat_count combo d)) * acc) 1
    DigitsMethod.nums.

Definition multiset_permutations (combo : list Z) : Z :=
  Z.of_nat (fact (length combo)) / factorial_product combo.

Definition total_multiset_permutations (combos : list (list Z)) : Z :=
  fold_right (fun combo acc => multiset_permutations combo + acc) 0 combos.

(** The sum of [starting_numbers] over [combos], whatever their chains. *)
Definition total_starting_numbers (combos : list (list Z)) : result Z :=
  for_each combos
    (fun combo acc => sn <- DigitsMethod.starting_numbers combo ;; Ok (acc + sn))
    0.

(** ** The caches of the cached strategy *)

(** The state that the loop would start from had both caches been given 568
    elements, one for each value 0..567. *)
Definition resized_state : BruteForceMethodCached.state :=
  BruteForceMethodCached.mkState (repeat false 568) (repeat false 568) 0.

(** Every value marked in [cache] is one whose table entry is [to_1]. *)
Definition cache_sound (to_1 : bool) (cache : list bool) : Prop :=
  length cache = 568%nat /\
  forall n, nth_error cache n = Some true ->
            arr_get squigits_to_1 (Z.of_nat n) = Ok to_1.

Definition caches_sound (st : BruteForceMethodCached.state) : Prop :=
  cache_sound false (BruteForceMethodCached.numbers_that_goto_89 st) /\
  cache_sound true (BruteForceMethodCached.numbers_that_goto_1 st) /\
  0 <= BruteForceMethodCached.numbers_ending_with_89 st < 2 ^ 32.

(** ** Checks on lists of combinations *)

(** A combination read as a decimal number, last element first. *)
Definition rev_key (combo : list Z) : Z :=
  fold_right (fun d acc => d + 10 * acc) 0 combo.

Fixpoint increasing (l : list Z) : bool :=
  match l with
  | x :: (y :: _) as l' => (x <? y) && increasing l'
  | _ => true
  end.

Fixpoint descending (l : list Z) : bool :=
  match l with
  | x :: (y :: _) as l' => (y <=? x) && descending l'
  | _ => true
  end.

Definition seven_digits (combo : list Z) : bool :=
  (length combo =? 7)%nat && forallb (fun d => (0 <=? d) && (d <=? 9)) combo.

(** ** Boolean checks that the proofs evaluate *)

(** The chain of [v] returns the verdict that slot [v] of the table holds. *)
Definition table_entry_ok (v : Z) : bool :=
  match to_1_while chain_fuel v, arr_get squigits_to_1 v with
  | Ok b1, Ok b2 => Bool.eqb b1 b2
  | _, _ => false
  end.

(** Slot [j] is initialised exactly when [j] lies in 1..567. *)
Definition slot_state_ok (j : Z) : bool :=
  match arr_get squigits_to_1 j with
  | Ok _ => (1 <=? j) && (j <=? 567)
  | Err Uninitialized => negb ((1 <=? j) && (j <=? 567))
  | Err _ => false
  end.

(** The digit strategy reads the table at no index outside 1..567. *)
Definition digits_read_ok (combo : list Z) : bool :=
  match DigitsMethod.squigit_val combo with
  | Ok sv => (sv =? 0) || ((1 <=? sv) && (sv <=? 567))
  | Err _ => false
  end.

Ltac split_digit H :=
  match type of H with
  | digit ?x =>
      let C := fresh "C" in
      assert (C : x = 0 \/ x = 1 \/ x = 2 \/ x = 3 \/ x = 4 \/ x = 5 \/
                  x = 6 \/ x = 7 \/ x = 8 \/ x = 9)
        by (unfold digit in H; lia);
      destruct C as [->|[->|[->|[->|[->|[->|[->|[->|[->| ->]]]]]]]]]
  end.

(** ** Further definitions for the statements *)

(** The sum of the squares of the elements of a list. *)
Definition sum_of_squares (combo : list Z) : Z :=
  fold_right (fun d acc => d * d + acc) 0 combo.

Definition power_10_nonzero (i : Z) : bool := negb (power 10 i =? 0).

(** [multiset_count k n]: the number of multisets of [k + 1] elements out
    of [n], by the recurrence of the generator's loop. *)
Fixpoint multiset_count (k : nat) : nat -> nat :=
  match k with
  | O => fun n => n
  | S k' =>
      fix inner (n : nat) : nat :=
        match n with
        | O => O
        | S n' => (multiset_count k' n + inner n')%nat
        end
  end.

Definition different_multisets (a b : list Z) : Prop := ~ Permutation a b.

(** * Properties *)

(** ** Facts about [wrap], [power], [digit_squares] *)

Lemma wrap_small (z : Z) : 0 <= z < 2 ^ 32 -> wrap z = z.
Proof. intros H. unfold wrap, u32_modulus. apply Z.mod_small. exact H. Qed.

Lemma wrap_range (z : Z) : 0 <= wrap z < 2 ^ 32.
Proof. unfold wrap, u32_modulus. apply Z.mod_pos_bound. reflexivity. Qed.

Lemma wrap_add_l (a b : Z) : wrap (wrap a + b) = wrap (a + b).
Proof. unfold wrap. apply Z.add_mod_idemp_l. unfold u32_modulus. lia. Qed.

Lemma power_loop_pow (n : nat) (ans : Z) :
  0 <= ans -> ans * 10 ^ Z.of_nat n < 2 ^ 32 ->
  power_loop n 10 ans = ans * 10 ^ Z.of_nat n.
Proof.
  revert ans. induction n as [|n IH]; intros ans H0 Hlt.
  - simpl. lia.
  - rewrite Nat2Z.inj_succ, Z.pow_succ_r in * by lia.
    cbn [power_loop].
    assert (Hp : 0 < 10 ^ Z.of_nat n) by (apply Z.pow_pos_nonneg; lia).
    rewrite wrap_small by nia.
    rewrite IH by nia. ring.
Qed.

Lemma power_10 (i : Z) : 0 <= i <= 9 -> power 10 i = 10 ^ i.
Proof.
  intros Hi. unfold power.
  rewrite power_loop_pow.
  - rewrite Z2Nat.id by lia. ring.
  - lia.
  - rewrite Z2Nat.id by lia.
    assert (10 ^ i <= 10 ^ 9) by (apply Z.pow_le_mono_r; lia).
    change (10 ^ 9) with 1000000000 in *. lia.
Qed.

Lemma digit_squares_zero (k : nat) : digit_squares k 0 = 0.
Proof. induction k as [|k IH]; [reflexivity|]. cbn [digit_squares]. exact IH. Qed.

Lemma digit_squares_bound (k : nat) (n : Z) :
  0 <= digit_squares k n <= 81 * Z.of_nat k.
Proof.
  revert n. induction k as [|k IH]; intros n.
  - simpl. lia.
  - cbn [digit_squares]. specialize (IH (n / 10)).
    assert (0 <= n mod 10 < 10) by (apply Z.mod_pos_bound; lia).
    nia.
Qed.

(** Digits above the most significant one are zero and add nothing. *)
Lemma digit_squares_more (k : nat) (n : Z) (extra : nat) :
  0 <= n < 10 ^ Z.of_nat k ->
  digit_squares (k + extra) n = digit_squares k n.
Proof.
  revert n. induction k as [|k IH]; intros n Hn.
  - simpl in Hn. assert (n = 0) by lia. subst n.
    rewrite digit_squares_zero. reflexivity.
  - rewrite Nat2Z.inj_succ, Z.pow_succ_r in Hn by lia.
    cbn [Nat.add digit_squares]. rewrite IH; [reflexivity|].
    split.
    + apply Z.div_pos; lia.
    + apply Z.div_lt_upper_bound; lia.
Qed.

Lemma digit_squares_positive (k : nat) (n : Z) :
  0 < n < 10 ^ Z.of_nat k -> 0 < digit_squares k n.
Proof.
  revert n. induction k as [|k IH]; intros n Hn.
  - simpl in Hn. lia.
  - rewrite Nat2Z.inj_succ, Z.pow_succ_r in Hn by lia.
    cbn [digit_squares].
    assert (Hd : 0 <= n mod 10 < 10) by (apply Z.mod_pos_bound; lia).
    pose proof (digit_squares_bound k (n / 10)) as Hb.
    destruct (Z.eq_dec (n mod 10) 0) as [Hz|Hz].
    + assert (0 < n / 10 < 10 ^ Z.of_nat k).
      { pose proof (Z.div_mod n 10 ltac:(lia)). split.
        - lia.
        - apply Z.div_lt_upper_bound; lia. }
      specialize (IH (n / 10) H). lia.
    + nia.
Qed.

(** ** [squigit] computes the sum of squared digits below 10^9 *)

(** One iteration of the loop of [squigit], while the power of ten of the
    iteration is below 2^32: the lowest digit of [q] is squared and added,
    and cleared from [val]. *)
Lemma squigit_loop_step (fuel : nat) (q ans i : Z) :
  1 <= i <= 9 -> 1 <= q -> q * 10 ^ (i - 1) < 2 ^ 32 ->
  0 <= ans -> ans + 81 < 2 ^ 32 ->
  squigit_loop (S fuel) (q * 10 ^ (i - 1)) ans i
  = squigit_loop fuel (q / 10 * 10 ^ (i + 1 - 1))
      (ans + q mod 10 * (q mod 10)) (i + 1).
Proof.
  intros Hi Hq Hlt Ha Hb.
  assert (Hpi : 0 < 10 ^ (i - 1)) by (apply Z.pow_pos_nonneg; lia).
  assert (Hpow : 10 ^ i = 10 * 10 ^ (i - 1)).
  { replace i with (Z.succ (i - 1)) at 1 by lia. apply Z.pow_succ_r. lia. }
  cbn [squigit_loop].
  destruct (Z.eqb_spec (q * 10 ^ (i - 1)) 0) as [Hz|_]; [nia|].
  rewrite (wrap_small (i - 1)), (wrap_small (i + 1)) by lia.
  rewrite !power_10 by lia.
  destruct (Z.eqb_spec (10 ^ i) 0) as [|_]; [lia|].
  destruct (Z.eqb_spec (10 ^ (i - 1)) 0) as [|_]; [lia|].
  assert (Hmod : (q * 10 ^ (i - 1)) mod 10 ^ i = (q mod 10) * 10 ^ (i - 1)).
  { rewrite Hpow. apply Z.mul_mod_distr_r; lia. }
  rewrite Hmod, Z.div_mul by lia.
  assert (Hd : 0 <= q mod 10 < 10) by (apply Z.mod_pos_bound; lia).
  pose proof (Z.div_mod q 10 ltac:(lia)) as Hdm.
  assert (Hq10 : 0 <= q / 10) by (apply Z.div_pos; lia).
  assert (Hval : q * 10 ^ (i - 1) - q mod 10 * 10 ^ (i - 1)
                 = q / 10 * 10 ^ (i + 1 - 1)).
  { replace (i + 1 - 1) with i by lia. rewrite Hpow. nia. }
  rewrite Hval.
  assert (H0le : 0 <= q / 10 * 10 ^ (i + 1 - 1)).
  { apply Z.mul_nonneg_nonneg; [lia|]. apply Z.pow_nonneg. lia. }
  assert (Hle : q / 10 * 10 ^ (i + 1 - 1) <= q * 10 ^ (i - 1))
    by (rewrite <- Hval; nia).
  change (2 ^ 32) with 4294967296 in *.
  rewrite (wrap_small (q / 10 * 10 ^ (i + 1 - 1)))
    by (change (2 ^ 32) with 4294967296; lia).
  rewrite (wrap_small (q mod 10 * (q mod 10)))
    by (change (2 ^ 32) with 4294967296; nia).
  rewrite (wrap_small (ans + _)) by (change (2 ^ 32) with 4294967296; nia).
  reflexivity.
Qed.

Lemma squigit_loop_digits (fuel : nat) :
  forall q ans i,
    1 <= i ->
    0 <= q < 10 ^ Z.of_nat fuel ->
    q * 10 ^ (i - 1) < 10 ^ 9 ->
    0 <= ans -> ans + 81 * Z.of_nat fuel < 2 ^ 32 ->
    squigit_loop fuel (q * 10 ^ (i - 1)) ans i = Ok (ans + digit_squares fuel q).
Proof.
  induction fuel as [|fuel IH]; intros q ans i Hi Hq Hlt Ha Hb.
  - simpl in Hq. assert (q = 0) by lia. subst q. simpl. f_equal. lia.
  - assert (Hpi : 0 < 10 ^ (i - 1)) by (apply Z.pow_pos_nonneg; lia).
    destruct (Z.eq_dec q 0) as [->|Hnz].
    + rewrite digit_squares_zero, Z.mul_0_l, Z.add_0_r. reflexivity.
    + assert (Hi9 : i <= 9).
      { destruct (Z_le_gt_dec i 9) as [|Hgt]; [assumption|exfalso].
        assert (10 ^ 9 <= 10 ^ (i - 1)) by (apply Z.pow_le_mono_r; lia).
        nia. }
      rewrite Nat2Z.inj_succ in Hb.
      rewrite Nat2Z.inj_succ, Z.pow_succ_r in Hq by lia.
      assert (Hd : 0 <= q mod 10 < 10) by (apply Z.mod_pos_bound; lia).
      change (10 ^ 9) with 1000000000 in Hlt.
      rewrite squigit_loop_step
        by first [lia | change (2 ^ 32) with 4294967296; lia].
      assert (Hq10 : 0 <= q / 10 < 10 ^ Z.of_nat fuel).
      { split; [apply Z.div_pos; lia|apply Z.div_lt_upper_bound; lia]. }
      assert (Hle : q / 10 * 10 ^ (i + 1 - 1) <= q * 10 ^ (i - 1)).
      { replace (i + 1 - 1) with (Z.succ (i - 1)) by lia.
        rewrite Z.pow_succ_r by lia.
        pose proof (Z.div_mod q 10 ltac:(lia)). nia. }
      rewrite IH;
        try first [lia | change (10 ^ 9) with 1000000000; lia
                  | change (2 ^ 32) with 4294967296 in *; nia].
      cbn [digit_squares]. f_equal. ring.
Qed.

Lemma squigit_small (n : Z) :
  0 <= n < 10 ^ 9 -> squigit n = Ok (sum_of_squared_digits n).
Proof.
  intros Hn. unfold squigit, squigit_fuel, sum_of_squared_digits.
  replace n with (n * 10 ^ (1 - 1)) at 1 by (change (10 ^ (1 - 1)) with 1; lia).
  change (10 ^ 9) with 1000000000 in Hn.
  rewrite squigit_loop_digits.
  - f_equal. rewrite Z.add_0_l.
    apply (digit_squares_more 10 n 22).
    change (10 ^ Z.of_nat 10) with 10000000000. lia.
  - lia.
  - assert (10 ^ 9 <= 10 ^ Z.of_nat 32) by (apply Z.pow_le_mono_r; lia).
    change (10 ^ 9) with 1000000000 in *. lia.
  - change (10 ^ (1 - 1)) with 1. change (10 ^ 9) with 1000000000. lia.
  - lia.
  - reflexivity.
Qed.


(** ** [squigit] on all 32-bit values *)

Lemma wrap_add_r (a b : Z) : wrap (a + wrap b) = wrap (a + b).
Proof. unfold wrap. apply Z.add_mod_idemp_r. unfold u32_modulus. lia. Qed.

(** The loop adds to [ans] what it would return from [ans = 0]. *)
Lemma squigit_loop_ans (fuel : nat) :
  forall val a i,
    0 <= a < 2 ^ 32 ->
    squigit_loop fuel val a i
    = r <- squigit_loop fuel val 0 i ;; Ok (wrap (a + r)).
Proof.
  induction fuel as [|fuel IH]; intros val a i Ha; cbn [squigit_loop];
    (destruct (val =? 0);
     [cbn [bind]; rewrite Z.add_0_r, wrap_small by exact Ha; reflexivity|]).
  - reflexivity.
  - destruct (power 10 i =? 0); [reflexivity|].
    destruct (power 10 (wrap (i - 1)) =? 0); [reflexivity|].
    set (w := wrap (val mod power 10 i / power 10 (wrap (i - 1)) *
                    (val mod power 10 i / power 10 (wrap (i - 1))))).
    rewrite (IH _ (wrap (a + w))) by apply wrap_range.
    rewrite (IH _ (wrap (0 + w))) by apply wrap_range.
    destruct (squigit_loop fuel _ 0 _) as [r|e]; cbn [bind]; [|reflexivity].
    f_equal. rewrite wrap_add_l, wrap_add_r.
    replace (a + (wrap (0 + w) + r)) with (wrap (0 + w) + (a + r)) by ring.
    rewrite wrap_add_l. f_equal. ring.
Qed.

(** The first [k] iterations on a value of more than [k] digits. *)
Lemma squigit_loop_steps (k : nat) :
  forall fuel q ans i,
    1 <= i -> i + Z.of_nat k <= 10 ->
    10 ^ Z.of_nat k <= q -> q * 10 ^ (i - 1) < 2 ^ 32 ->
    0 <= ans -> ans + 81 * Z.of_nat k < 2 ^ 32 ->
    squigit_loop (k + fuel) (q * 10 ^ (i - 1)) ans i
    = squigit_loop fuel (q / 10 ^ Z.of_nat k * 10 ^ (i + Z.of_nat k - 1))
        (ans + digit_squares k q) (i + Z.of_nat k).
Proof.
  induction k as [|k IH]; intros fuel q ans i Hi Hk Hq Hlt Ha Hb.
  - cbn [Nat.add digit_squares Z.of_nat]. change (10 ^ 0) with 1.
    rewrite Z.div_1_r, !Z.add_0_r. reflexivity.
  - rewrite Nat2Z.inj_succ in *. rewrite Z.pow_succ_r in Hq by lia.
    assert (Hpk : 0 < 10 ^ Z.of_nat k) by (apply Z.pow_pos_nonneg; lia).
    assert (Hpi : 0 < 10 ^ (i - 1)) by (apply Z.pow_pos_nonneg; lia).
    assert (Hd : 0 <= q mod 10 < 10) by (apply Z.mod_pos_bound; lia).
    cbn [Nat.add]. change (2 ^ 32) with 4294967296 in *.
    rewrite squigit_loop_step
      by first [lia | change (2 ^ 32) with 4294967296; lia].
    assert (Hq10 : 10 ^ Z.of_nat k <= q / 10)
      by (apply Z.div_le_lower_bound; lia).
    assert (Hle : q / 10 * 10 ^ (i + 1 - 1) <= q * 10 ^ (i - 1)).
    { replace (i + 1 - 1) with (Z.succ (i - 1)) by lia.
      rewrite Z.pow_succ_r by lia.
      pose proof (Z.div_mod q 10 ltac:(lia)). nia. }
    rewrite IH;
      try first [lia | change (2 ^ 32) with 4294967296; nia].
    rewrite Z.pow_succ_r, Z.div_div by lia.
    cbn [digit_squares]. f_equal; [f_equal; f_equal; lia|ring|lia].
Qed.

Lemma digit_squares_top (k : nat) :
  forall n,
    digit_squares (S k) n
    = digit_squares k n
      + (n / 10 ^ Z.of_nat k) mod 10 * ((n / 10 ^ Z.of_nat k) mod 10).
Proof.
  induction k as [|k IH]; intros n.
  - cbn [digit_squares Z.of_nat]. change (10 ^ 0) with 1.
    rewrite Z.div_1_r. ring.
  - assert (Hpk : 0 < 10 ^ Z.of_nat k) by (apply Z.pow_pos_nonneg; lia).
    change (digit_squares (S (S k)) n)
      with (n mod 10 * (n mod 10) + digit_squares (S k) (n / 10)).
    rewrite IH. cbn [digit_squares].
    rewrite Nat2Z.inj_succ, Z.pow_succ_r, Z.div_div by lia. ring.
Qed.

(** X3: what [squigit] does on every 32-bit value: it always returns, and the
    result is the sum of the squared digits exactly when the value is below
    2000000000. *)
Lemma squigit_all_u32 (val : Z) :
  0 <= val < 2 ^ 32 ->
  exists s, squigit val = Ok s /\
            (s = sum_of_squared_digits val <-> val < 2000000000).
Proof.
  intros Hval. change (2 ^ 32) with 4294967296 in Hval.
  destruct (Z_lt_ge_dec val 1000000000) as [Hsmall|Hbig].
  - exists (sum_of_squared_digits val). split.
    + apply squigit_small. change (10 ^ 9) with 1000000000. lia.
    + split; intros; [lia|reflexivity].
  - pose proof (digit_squares_bound 9 val) as Hb.
    change (81 * Z.of_nat 9) with 729 in Hb.
    assert (Hloop :
      squigit val
      = r <- squigit_loop 23 (val / 1000000000 * 1000000000) 0 10 ;;
        Ok (wrap (digit_squares 9 val + r))).
    { unfold squigit, squigit_fuel.
      change 32%nat with (9 + 23)%nat.
      replace val with (val * 10 ^ (1 - 1)) at 1
        by (change (10 ^ (1 - 1)) with 1; lia).
      rewrite (squigit_loop_steps 9 23 val 0 1);
        try first [lia | change (10 ^ Z.of_nat 9) with 1000000000; lia
                  | change (10 ^ (1 - 1)) with 1;
                    change (2 ^ 32) with 4294967296; lia
                  | change (2 ^ 32) with 4294967296; lia].
      change (10 ^ Z.of_nat 9) with 1000000000.
      change (10 ^ (1 + Z.of_nat 9 - 1)) with 1000000000.
      change (1 + Z.of_nat 9) with 10. rewrite Z.add_0_l.
      apply squigit_loop_ans. change (2 ^ 32) with 4294967296. lia. }
    rewrite Hloop. clear Hloop.
    unfold sum_of_squared_digits.
    change (digit_squares 10 val) with (digit_squares (S 9) val).
    rewrite (digit_squares_top 9 val).
    change (10 ^ Z.of_nat 9) with 1000000000.
    assert (Hh : 1 <= val / 1000000000 <= 4).
    { split; [apply Z.div_le_lower_bound; lia|].
      assert (val / 1000000000 < 5) by (apply Z.div_lt_upper_bound; lia).
      lia. }
    pose proof (Z.div_mod val 1000000000 ltac:(lia)) as Hdm.
    pose proof (Z.mod_pos_bound val 1000000000 ltac:(lia)) as Hm.
    assert (C : val / 1000000000 = 1 \/ val / 1000000000 = 2 \/
                val / 1000000000 = 3 \/ val / 1000000000 = 4) by lia.
    destruct C as [C|[C|[C|C]]]; rewrite C in *.
    + replace (squigit_loop 23 (1 * 1000000000) 0 10) with (Ok 1 : result Z)
        by (vm_compute; reflexivity).
      cbn [bind]. rewrite wrap_small by (change (2 ^ 32) with 4294967296; lia).
      eexists. split; [reflexivity|].
      change (1 mod 10 * (1 mod 10)) with 1. lia.
    + replace (squigit_loop 23 (2 * 1000000000) 0 10) with (Ok 1 : result Z)
        by (vm_compute; reflexivity).
      cbn [bind]. rewrite wrap_small by (change (2 ^ 32) with 4294967296; lia).
      eexists. split; [reflexivity|].
      change (2 mod 10 * (2 mod 10)) with 4. lia.
    + replace (squigit_loop 23 (3 * 1000000000) 0 10) with (Ok 4 : result Z)
        by (vm_compute; reflexivity).
      cbn [bind]. rewrite wrap_small by (change (2 ^ 32) with 4294967296; lia).
      eexists. split; [reflexivity|].
      change (3 mod 10 * (3 mod 10)) with 9. lia.
    + replace (squigit_loop 23 (4 * 1000000000) 0 10) with (Ok 5 : result Z)
        by (vm_compute; reflexivity).
      cbn [bind]. rewrite wrap_small by (change (2 ^ 32) with 4294967296; lia).
      eexists. split; [reflexivity|].
      change (4 mod 10 * (4 mod 10)) with 16. lia.
Qed.

(** The bound [squigit_fuel] loses nothing: with any larger bound the loop
    gives the same result, because it has returned, or divided by
    [power 10 32 = 0], by its 32nd iteration. *)
Lemma squigit_loop_fuel_irrelevant (k : nat) :
  forall (fuel : nat) (val ans i : Z),
    1 <= i -> i + Z.of_nat k = 32 -> (S k <= fuel)%nat ->
    squigit_loop fuel val ans i = squigit_loop (S k) val ans i.
Proof.
  induction k as [|k IH]; intros fuel val ans i Hi Hk Hfuel.
  - destruct fuel as [|fuel]; [lia|].
    assert (i = 32) by lia. subst i.
    cbn [squigit_loop]. destruct (val =? 0); [reflexivity|].
    replace (power 10 32) with 0 by (vm_compute; reflexivity).
    reflexivity.
  - destruct fuel as [|fuel]; [lia|].
    cbn [squigit_loop]. destruct (val =? 0); [reflexivity|].
    destruct (power 10 i =? 0); [reflexivity|].
    destruct (power 10 (wrap (i - 1)) =? 0); [reflexivity|].
    rewrite (wrap_small (i + 1)) by lia.
    apply IH; lia.
Qed.

Lemma squigit_loop_fuel (fuel : nat) (val : Z) :
  (squigit_fuel <= fuel)%nat -> squigit_loop fuel val 0 1 = squigit val.
Proof.
  intros H. unfold squigit, squigit_fuel in *.
  apply (squigit_loop_fuel_irrelevant 31); lia.
Qed.

Lemma sum_of_squared_digits_7 (n : Z) :
  0 <= n < TEN_MILLION -> sum_of_squared_digits n = digit_squares 7 n.
Proof.
  intros Hn. unfold sum_of_squared_digits, TEN_MILLION in *.
  apply (digit_squares_more 7 n 3).
  change (10 ^ Z.of_nat 7) with 10000000. exact Hn.
Qed.

Lemma squigit_below_ten_million (n : Z) :
  0 <= n < TEN_MILLION ->
  squigit n = Ok (sum_of_squared_digits n) /\
  0 <= sum_of_squared_digits n <= 567.
Proof.
  intros Hn. split.
  - apply squigit_small. unfold TEN_MILLION in Hn.
    change (10 ^ 9) with 1000000000. lia.
  - rewrite sum_of_squared_digits_7 by exact Hn.
    pose proof (digit_squares_bound 7 n) as Hb.
    change (81 * Z.of_nat 7) with 567 in Hb. exact Hb.
Qed.

Lemma squigit_positive (n : Z) :
  1 <= n < TEN_MILLION -> 1 <= sum_of_squared_digits n.
Proof.
  intros Hn. rewrite sum_of_squared_digits_7 by lia.
  assert (0 < digit_squares 7 n); [|lia].
  apply digit_squares_positive. unfold TEN_MILLION in Hn.
  change (10 ^ Z.of_nat 7) with 10000000. lia.
Qed.

(** C9: the five sample values of [squigit]. *)
Theorem squigit_examples :
  squigit 0 = Ok 0 /\ squigit 44 = Ok 32 /\ squigit 85 = Ok 89 /\
  squigit 89 = Ok 145 /\ squigit 145 = Ok 42.
Proof. repeat split; vm_compute; reflexivity. Qed.

(** C6: below ten million, [squigit] returns a value between 0 and 567. *)
Theorem squigit_range (n : Z) :
  0 <= n < 10000000 ->
  exists s, squigit n = Ok s /\ 0 <= s <= 567.
Proof.
  intros Hn. exists (sum_of_squared_digits n).
  apply squigit_below_ten_million. exact Hn.
Qed.

Lemma squigit_range_witness :
  0 <= 9999999 < 10000000 /\ exists s, squigit 9999999 = Ok s /\ 0 <= s <= 567.
Proof. split; [lia|]. apply (squigit_range 9999999). lia. Defined.

(** C5: on the 32-bit value 2000000000 the loop of [squigit] runs to its
    end and returns 1, while the squared digits of 2000000000 sum to 4:
    [power(10, 10)] has wrapped around to 1410065408. *)
Theorem squigit_two_billion :
  0 <= 2000000000 < u32_modulus /\
  power 10 10 = 1410065408 /\
  squigit 2000000000 = Ok 1 /\
  sum_of_squared_digits 2000000000 = 4.
Proof.
  split; [unfold u32_modulus; lia|].
  repeat split; vm_compute; reflexivity.
Qed.

(** ** Loops *)

Lemma In_zrange (n : nat) :
  forall lo x, In x (zrange n lo) <-> lo <= x < lo + Z.of_nat n.
Proof.
  induction n as [|n IH]; intros lo x.
  - simpl. lia.
  - cbn [zrange In]. rewrite IH, Nat2Z.inj_succ. lia.
Qed.

Lemma for_loop_S {S : Type} (body : Z -> S -> result S) (n : nat) (i : Z) (s : S) :
  for_loop (Datatypes.S n) i body s
  = s' <- body i s ;; for_loop n (i + 1) body s'.
Proof. reflexivity. Qed.

Lemma bind_Err {A B : Type} (e : error) (k : A -> result B) :
  bind (Err e) k = Err e.
Proof. reflexivity. Qed.

Lemma for_loop_ext {S : Type} (b1 b2 : Z -> S -> result S) (n : nat) :
  forall lo s,
    (forall i s', lo <= i < lo + Z.of_nat n -> b1 i s' = b2 i s') ->
    for_loop n lo b1 s = for_loop n lo b2 s.
Proof.
  induction n as [|n IH]; intros lo s H; [reflexivity|].
  cbn [for_loop]. rewrite Nat2Z.inj_succ in H.
  rewrite H by lia.
  destruct (b2 lo s) as [s'|e]; [|reflexivity].
  cbn [bind]. apply IH. intros i s'' Hi. apply H. lia.
Qed.

(** ** The table and the chains of the values 1..567 *)

Lemma to_1_while_mono (fuel : nat) :
  forall val b (extra : nat),
    to_1_while fuel val = Ok b -> to_1_while (fuel + extra) val = Ok b.
Proof.
  induction fuel as [|fuel IH]; intros val b extra H; [discriminate|].
  cbn [Nat.add to_1_while] in *.
  destruct (val =? 1); [exact H|].
  destruct (val =? 89); [exact H|].
  destruct (squigit val) as [v|e]; [|discriminate].
  cbn [bind] in *. apply IH. exact H.
Qed.

Lemma table_entries_ok : forallb table_entry_ok (zrange 567 1) = true.
Proof. vm_compute. reflexivity. Qed.

(** Slot [v] of the table, for [v] in 1..567, holds the verdict of the
    chain that starts at [v]. *)
Lemma table_entry (v : Z) :
  1 <= v <= 567 ->
  exists b, arr_get squigits_to_1 v = Ok b /\
            forall fuel, (chain_fuel <= fuel)%nat -> to_1_while fuel v = Ok b.
Proof.
  intros Hv.
  pose proof table_entries_ok as H.
  rewrite forallb_forall in H.
  specialize (H v). rewrite In_zrange in H.
  specialize (H ltac:(lia)).
  unfold table_entry_ok in H.
  destruct (to_1_while chain_fuel v) as [b1|] eqn:E1; [|discriminate].
  destruct (arr_get squigits_to_1 v) as [b2|] eqn:E2; [|discriminate].
  apply Bool.eqb_prop in H. subst b2.
  exists b1. split; [reflexivity|].
  intros fuel Hf.
  replace fuel with (chain_fuel + (fuel - chain_fuel))%nat by lia.
  apply to_1_while_mono. exact E1.
Qed.

Lemma build_squigits_to_1_chain_fuel :
  build_squigits_to_1 chain_fuel = Ok squigits_to_1.
Proof. vm_compute. reflexivity. Qed.

Lemma build_squigits_to_1_fuel (fuel : nat) :
  (chain_fuel <= fuel)%nat -> build_squigits_to_1 fuel = Ok squigits_to_1.
Proof.
  intros Hf. rewrite <- build_squigits_to_1_chain_fuel.
  unfold build_squigits_to_1, for_range.
  apply for_loop_ext. intros i t Hi.
  change (Z.of_nat (Z.to_nat (568 - 1))) with 567 in Hi.
  destruct (table_entry i ltac:(lia)) as [b [_ Hb]].
  rewrite (Hb fuel Hf), (Hb chain_fuel (le_n _)). reflexivity.
Qed.

(** ** Sums over ranges and histograms *)

Lemma sum_range_ext (f1 f2 : Z -> Z) (n : nat) :
  forall lo,
    (forall i, lo <= i < lo + Z.of_nat n -> f1 i = f2 i) ->
    sum_range n lo f1 = sum_range n lo f2.
Proof.
  induction n as [|n IH]; intros lo H; [reflexivity|].
  cbn [sum_range]. rewrite Nat2Z.inj_succ in H.
  rewrite H by lia. f_equal. apply IH. intros i Hi. apply H. lia.
Qed.

Lemma sum_range_app (f : Z -> Z) (a b : nat) :
  forall lo,
    sum_range (a + b) lo f = sum_range a lo f + sum_range b (lo + Z.of_nat a) f.
Proof.
  induction a as [|a IH]; intros lo.
  - cbn [Nat.add sum_range]. replace (lo + Z.of_nat 0) with lo by lia. lia.
  - cbn [Nat.add sum_range]. rewrite IH, Nat2Z.inj_succ.
    replace (lo + 1 + Z.of_nat a) with (lo + Z.succ (Z.of_nat a)) by lia. lia.
Qed.

Lemma sum_range_10 (f : Z -> Z) (lo : Z) :
  sum_range 10 lo f = over_digits (fun d => f (lo + d)).
Proof.
  unfold over_digits. cbn [sum_range].
  replace (lo + 0) with lo by ring.
  replace (lo + 1 + 1) with (lo + 2) by ring.
  replace (lo + 2 + 1) with (lo + 3) by ring.
  replace (lo + 3 + 1) with (lo + 4) by ring.
  replace (lo + 4 + 1) with (lo + 5) by ring.
  replace (lo + 5 + 1) with (lo + 6) by ring.
  replace (lo + 6 + 1) with (lo + 7) by ring.
  replace (lo + 7 + 1) with (lo + 8) by ring.
  replace (lo + 8 + 1) with (lo + 9) by ring.
  ring.
Qed.

(** Ten times as many numbers: group them by all but the last digit. *)
Lemma sum_range_times_10 (f : Z -> Z) (m : nat) :
  forall lo,
    sum_range (10 * m) (10 * lo) f
    = sum_range m lo (fun q => over_digits (fun d => f (10 * q + d))).
Proof.
  induction m as [|m IH]; intros lo.
  - rewrite Nat.mul_0_r. reflexivity.
  - replace (10 * S m)%nat with (10 + 10 * m)%nat by lia.
    rewrite sum_range_app, sum_range_10. cbn [sum_range]. f_equal.
    replace (10 * lo + Z.of_nat 10) with (10 * (lo + 1)) by lia.
    apply IH.
Qed.

Lemma digit_squares_last (k : nat) (q d : Z) :
  0 <= d < 10 ->
  digit_squares (S k) (10 * q + d) = d * d + digit_squares k q.
Proof.
  intros Hd. cbn [digit_squares].
  replace ((10 * q + d) mod 10) with d.
  - replace ((10 * q + d) / 10) with q; [reflexivity|].
    apply (Z.div_unique _ _ _ d); lia.
  - apply (Z.mod_unique _ _ q); lia.
Qed.

Lemma weighted_sum_add (g : Z -> Z) (a : list Z) :
  forall b s,
    weighted_sum (pointwise_add a b) s g
    = weighted_sum a s g + weighted_sum b s g.
Proof.
  induction a as [|x a IH]; intros b s.
  - reflexivity.
  - destruct b as [|y b].
    + cbn [pointwise_add weighted_sum]. lia.
    + cbn [pointwise_add weighted_sum]. rewrite IH. ring.
Qed.

Lemma weighted_sum_shift (g : Z -> Z) (hist : list Z) (n : nat) :
  forall s,
    weighted_sum (shift_by n hist) s g = weighted_sum hist (s + Z.of_nat n) g.
Proof.
  unfold shift_by. induction n as [|n IH]; intros s.
  - cbn [repeat app]. f_equal. lia.
  - cbn [repeat app weighted_sum]. rewrite IH, Nat2Z.inj_succ.
    replace (s + 1 + Z.of_nat n) with (s + Z.succ (Z.of_nat n)) by lia. lia.
Qed.

Lemma weighted_sum_index (g : Z -> Z) (a : Z) (hist : list Z) :
  forall s,
    weighted_sum hist (s + a) g = weighted_sum hist s (fun x => g (a + x)).
Proof.
  induction hist as [|c hist IH]; intros s; [reflexivity|].
  cbn [weighted_sum].
  replace (s + a + 1) with (s + 1 + a) by lia.
  rewrite IH. replace (a + s) with (s + a) by lia. reflexivity.
Qed.

Lemma weighted_sum_plus (g1 g2 : Z -> Z) (hist : list Z) :
  forall s,
    weighted_sum hist s (fun x => g1 x + g2 x)
    = weighted_sum hist s g1 + weighted_sum hist s g2.
Proof.
  induction hist as [|c hist IH]; intros s; [reflexivity|].
  cbn [weighted_sum]. rewrite IH. ring.
Qed.

Lemma weighted_sum_add_digit (g : Z -> Z) (hist : list Z) :
  weighted_sum (add_digit hist) 0 g
  = weighted_sum hist 0 (fun s => over_digits (fun d => g (d * d + s))).
Proof.
  unfold add_digit, over_digits. cbn [fold_right].
  rewrite !weighted_sum_add, !weighted_sum_shift, !weighted_sum_index.
  rewrite !weighted_sum_plus. cbn [weighted_sum Nat.mul Nat.add Z.of_nat].
  ring_simplify. reflexivity.
Qed.

(** The numbers below [10^k], summed by value, are the histogram summed by
    digit-square sum. *)
Lemma count_by_histogram (k : nat) :
  forall g : Z -> Z,
    sum_range (Z.to_nat (10 ^ Z.of_nat k)) 0 (fun i => g (digit_squares k i))
    = weighted_sum (histogram k) 0 g.
Proof.
  induction k as [|k IH]; intros g.
  - change (Z.to_nat (10 ^ Z.of_nat 0)) with 1%nat.
    cbn [sum_range digit_squares histogram weighted_sum]. ring.
  - assert (Hpos : 0 < 10 ^ Z.of_nat k) by (apply Z.pow_pos_nonneg; lia).
    rewrite Nat2Z.inj_succ, Z.pow_succ_r by lia.
    rewrite Z2Nat.inj_mul by lia.
    change (Z.to_nat 10) with 10%nat.
    change 0 with (10 * 0) at 1.
    rewrite sum_range_times_10.
    cbn [histogram]. rewrite weighted_sum_add_digit, <- IH.
    apply sum_range_ext. intros q Hq.
    unfold over_digits.
    rewrite !digit_squares_last by lia. reflexivity.
Qed.

Lemma for_loop_count (f : Z -> Z) (body : Z -> Z -> result Z) (n : nat) :
  forall lo c,
    0 <= c < 2 ^ 32 ->
    (forall i c', lo <= i < lo + Z.of_nat n -> 0 <= c' < 2 ^ 32 ->
                  body i c' = Ok (wrap (c' + f i))) ->
    for_loop n lo body c = Ok (wrap (c + sum_range n lo f)).
Proof.
  induction n as [|n IH]; intros lo c Hc H.
  - cbn [for_loop sum_range]. rewrite Z.add_0_r, wrap_small by exact Hc.
    reflexivity.
  - cbn [for_loop sum_range]. rewrite Nat2Z.inj_succ in H.
    rewrite H by lia. cbn [bind].
    rewrite IH.
    + rewrite wrap_add_l, Z.add_assoc. reflexivity.
    + apply wrap_range.
    + intros i c' Hi Hc'. apply H; lia.
Qed.

(** ** The main pass of the table strategy *)

Lemma reaches_89_zero : reaches_89 0 = 0.
Proof. vm_compute. reflexivity. Qed.

Lemma histogram_count : weighted_sum (histogram 7) 0 reaches_89 = 8581146.
Proof. vm_compute. reflexivity. Qed.

Lemma squigits_body (i c : Z) :
  1 <= i < TEN_MILLION -> 0 <= c < 2 ^ 32 ->
  SquigitsMethod.body squigits_to_1 i c
  = Ok (wrap (c + reaches_89 (digit_squares 7 i))).
Proof.
  intros Hi Hc. unfold SquigitsMethod.body.
  destruct (squigit_below_ten_million i ltac:(lia)) as [Hs Hr].
  pose proof (squigit_positive i Hi) as Hp.
  rewrite Hs. cbn [bind].
  rewrite <- sum_of_squared_digits_7 by lia.
  destruct (table_entry (sum_of_squared_digits i) ltac:(lia)) as [b [Hb _]].
  unfold reaches_89. rewrite Hb. cbn [bind].
  destruct b; cbn [negb].
  - rewrite Z.add_0_r, wrap_small by exact Hc. reflexivity.
  - reflexivity.
Qed.

Lemma ten_million_numbers :
  sum_range (Z.to_nat (TEN_MILLION - 1)) 1
    (fun i => reaches_89 (digit_squares 7 i)) = 8581146.
Proof.
  rewrite <- histogram_count, <- count_by_histogram.
  change (10 ^ Z.of_nat 7) with TEN_MILLION.
  replace (Z.to_nat TEN_MILLION) with (1 + Z.to_nat (TEN_MILLION - 1))%nat
    by (unfold TEN_MILLION; lia).
  rewrite sum_range_app.
  cbn [sum_range].
  rewrite digit_squares_zero, reaches_89_zero.
  change (0 + Z.of_nat 1) with 1. lia.
Qed.

Lemma squigits_main_pass :
  for_range 1 TEN_MILLION (SquigitsMethod.body squigits_to_1) 0 = Ok 8581146.
Proof.
  unfold for_range.
  rewrite (for_loop_count (fun i => reaches_89 (digit_squares 7 i))).
  - rewrite ten_million_numbers. reflexivity.
  - lia.
  - intros i c' Hi Hc'. apply squigits_body; [|exact Hc'].
    unfold TEN_MILLION in *. lia.
Qed.

Lemma squigits_solve (fuel : nat) :
  (chain_fuel <= fuel)%nat -> SquigitsMethod.solve fuel = Ok 8581146.
Proof.
  intros Hf. unfold SquigitsMethod.solve.
  rewrite build_squigits_to_1_fuel by exact Hf. cbn [bind].
  apply squigits_main_pass.
Qed.

(** ** Brute force against the table *)

Lemma to_1_while_S (fuel : nat) (val : Z) :
  to_1_while (S fuel) val
  = if val =? 1 then Ok true
    else if val =? 89 then Ok false
    else v <- squigit val ;; to_1_while fuel v.
Proof. reflexivity. Qed.

Lemma brute_chain_while_S (fuel : nat) (cur c len : Z) :
  BruteForceMethod.chain_while (S fuel) cur c len
  = val <- squigit cur ;;
    if val =? 89 then Ok (wrap (c + 1))
    else if val =? 1 then Ok c
    else BruteForceMethod.chain_while fuel val c (wrap (len + 1)).
Proof. reflexivity. Qed.

Lemma chain_while_to_1 (fuel : nat) :
  forall cur c len v b,
    squigit cur = Ok v ->
    to_1_while (S fuel) v = Ok b ->
    BruteForceMethod.chain_while (S fuel) cur c len
    = Ok (if b then c else wrap (c + 1)).
Proof.
  induction fuel as [|fuel IH]; intros cur c len v b Hs Ht;
    rewrite brute_chain_while_S, Hs; cbn [bind];
    rewrite to_1_while_S in Ht;
    (destruct (Z.eqb_spec v 1) as [->|H1];
     [injection Ht as <-; reflexivity|]);
    (destruct (Z.eqb_spec v 89) as [->|H89];
     [injection Ht as <-; reflexivity|]);
    (destruct (squigit v) as [v'|e] eqn:Hv; [|discriminate]);
    cbn [bind] in Ht.
  - discriminate.
  - apply (IH v c (wrap (len + 1)) v' b Hv Ht).
Qed.

Lemma brute_force_body (fuel : nat) (i c : Z) :
  (chain_fuel <= fuel)%nat -> 1 <= i < TEN_MILLION ->
  BruteForceMethod.chain_while fuel i c 0 = SquigitsMethod.body squigits_to_1 i c.
Proof.
  intros Hf Hi. unfold SquigitsMethod.body.
  destruct (squigit_below_ten_million i ltac:(lia)) as [Hs Hr].
  pose proof (squigit_positive i Hi) as Hp.
  destruct (table_entry (sum_of_squared_digits i) ltac:(lia)) as [b [Hb Ht]].
  destruct fuel as [|fuel]; [unfold chain_fuel in Hf; lia|].
  rewrite (chain_while_to_1 fuel i c 0 _ b Hs (Ht _ Hf)).
  rewrite Hs. cbn [bind]. rewrite Hb. cbn [bind].
  destruct b; reflexivity.
Qed.

Lemma brute_force_solve (fuel : nat) :
  (chain_fuel <= fuel)%nat -> BruteForceMethod.solve fuel = Ok 8581146.
Proof.
  intros Hf. rewrite <- squigits_main_pass.
  unfold BruteForceMethod.solve, for_range.
  apply for_loop_ext. intros i c Hi.
  apply brute_force_body; [exact Hf|].
  unfold TEN_MILLION in *. lia.
Qed.

(** ** The combination generator and the digit strategy *)

Lemma combination_unfold (fuel : nat) (elements : list Z) (r : Z) :
  DigitsMethod.combination fuel elements r
  = if r =? 1 then Ok (map (fun element => [element]) elements)
    else
      DigitsMethod.combination_loop
        (match fuel with
         | O => fun _ => Err OutOfFuel
         | S fuel' => fun e => DigitsMethod.combination fuel' e (wrap (r - 1))
         end)
        elements elements [].
Proof. destruct fuel; reflexivity. Qed.

Lemma combination_loop_mono (sub sub' : list Z -> result (list (list Z))) :
  (forall e y, sub e = Ok y -> sub' e = Ok y) ->
  forall elements to_use acc x,
    DigitsMethod.combination_loop sub elements to_use acc = Ok x ->
    DigitsMethod.combination_loop sub' elements to_use acc = Ok x.
Proof.
  intros Hsub elements.
  induction elements as [|element rest IH]; intros to_use acc x H.
  - exact H.
  - cbn [DigitsMethod.combination_loop] in *.
    destruct (sub to_use) as [combos|e] eqn:E; [|discriminate].
    rewrite (Hsub _ _ E). cbn [bind] in *. apply IH. exact H.
Qed.

Lemma combination_mono (fuel : nat) :
  forall elements r x (extra : nat),
    DigitsMethod.combination fuel elements r = Ok x ->
    DigitsMethod.combination (fuel + extra) elements r = Ok x.
Proof.
  induction fuel as [|fuel IH]; intros elements r x extra H;
    rewrite combination_unfold in *;
    (destruct (r =? 1); [exact H|]);
    revert H; apply combination_loop_mono.
  - intros e y Hy. discriminate.
  - intros e y Hy. cbn [Nat.add]. apply IH. exact Hy.
Qed.

Lemma combination_nums_7 (fuel : nat) :
  (6 <= fuel)%nat ->
  DigitsMethod.combination fuel DigitsMethod.nums 7 = Ok combinations_7.
Proof.
  intros Hf. replace fuel with (6 + (fuel - 6))%nat by lia.
  apply combination_mono. vm_compute. reflexivity.
Qed.

Lemma digits_main_pass :
  for_each combinations_7 (DigitsMethod.body squigits_to_1) 0 = Ok 8581146.
Proof. vm_compute. reflexivity. Qed.

Lemma digits_solve (fuel : nat) :
  (chain_fuel <= fuel)%nat -> DigitsMethod.solve fuel = Ok 8581146.
Proof.
  intros Hf. unfold DigitsMethod.solve.
  rewrite build_squigits_to_1_fuel by exact Hf. cbn [bind].
  rewrite combination_nums_7 by (unfold chain_fuel in Hf; lia). cbn [bind].
  apply digits_main_pass.
Qed.

(** ** The cached strategy *)

Lemma cached_first_read (fuel : nat) :
  (1 <= fuel)%nat ->
  BruteForceMethodCached.chain_while fuel
    BruteForceMethodCached.initial_state 1 [] = Err OutOfBounds.
Proof.
  intros Hf. destruct fuel as [|fuel]; [lia|].
  cbn [BruteForceMethodCached.chain_while].
  replace (squigit 1) with (Ok 1 : result Z) by (vm_compute; reflexivity).
  reflexivity.
Qed.

Lemma cached_solve (fuel : nat) :
  (1 <= fuel)%nat -> BruteForceMethodCached.solve fuel = Err OutOfBounds.
Proof.
  intros Hf.
  unfold BruteForceMethodCached.solve, BruteForceMethodCached.solve_from,
    for_range.
  replace (Z.to_nat (TEN_MILLION - 1))
    with (S (Z.to_nat (TEN_MILLION - 2))) by (unfold TEN_MILLION; lia).
  rewrite for_loop_S. unfold BruteForceMethodCached.body.
  rewrite cached_first_read by exact Hf.
  rewrite !bind_Err. reflexivity.
Qed.

(** ** The loop of the cached strategy with caches of 568 elements *)

Lemma list_update_length {A : Type} (a : A) (v : list A) :
  forall n, length (list_update v n a) = length v.
Proof.
  induction v as [|x v IH]; intros n; [reflexivity|].
  destruct n as [|n]; cbn [list_update length]; [reflexivity|].
  rewrite IH. reflexivity.
Qed.

Lemma nth_error_list_update {A : Type} (a : A) (v : list A) :
  forall n m,
    nth_error (list_update v n a) m = Some a ->
    m = n \/ nth_error v m = Some a.
Proof.
  induction v as [|x v IH]; intros n m H.
  - right. exact H.
  - destruct n as [|n], m as [|m]; cbn [list_update nth_error] in *.
    + left. reflexivity.
    + right. exact H.
    + right. exact H.
    + destruct (IH n m H) as [->|Hm]; [left; reflexivity|right; exact Hm].
Qed.

Lemma vec_get_in_bounds {A : Type} (v : list A) (i : Z) :
  (Z.to_nat i < length v)%nat ->
  exists a, vec_get v i = Ok a /\ nth_error v (Z.to_nat i) = Some a.
Proof.
  intros H. unfold vec_get.
  destruct (nth_error v (Z.to_nat i)) as [a|] eqn:E.
  - exists a. split; reflexivity.
  - apply nth_error_None in E. lia.
Qed.

Lemma mark_all_sound (to_1 : bool) (chain_numbers : list Z) :
  forall cache,
    cache_sound to_1 cache ->
    (forall x, In x chain_numbers ->
               1 <= x <= 567 /\ arr_get squigits_to_1 x = Ok to_1) ->
    exists cache',
      BruteForceMethodCached.mark_all cache chain_numbers = Ok cache' /\
      cache_sound to_1 cache'.
Proof.
  unfold BruteForceMethodCached.mark_all.
  induction chain_numbers as [|x chain IH]; intros cache Hc Hall.
  - exists cache. split; [reflexivity|exact Hc].
  - cbn [for_each]. destruct Hc as [Hlen Hmarks].
    destruct (Hall x (or_introl eq_refl)) as [Hx Htx].
    unfold vec_set at 1.
    destruct (Nat.ltb_spec (Z.to_nat x) (length cache)) as [_|Hge]; [|lia].
    cbn [bind]. apply IH.
    + split; [rewrite list_update_length; exact Hlen|].
      intros n Hn. apply nth_error_list_update in Hn.
      destruct Hn as [->|Hn]; [|apply Hmarks; exact Hn].
      rewrite Z2Nat.id by lia. exact Htx.
    + intros y Hy. apply Hall. right. exact Hy.
Qed.

(** One application of [squigit] stays in 1..567 and keeps the verdict of
    the table. *)
Lemma squigit_same_verdict (v : Z) :
  1 <= v <= 567 -> v <> 1 -> v <> 89 ->
  exists v', squigit v = Ok v' /\ 1 <= v' <= 567 /\
             arr_get squigits_to_1 v' = arr_get squigits_to_1 v.
Proof.
  intros Hv H1 H89.
  destruct (squigit_below_ten_million v ltac:(unfold TEN_MILLION; lia))
    as [Hs Hr].
  pose proof (squigit_positive v ltac:(unfold TEN_MILLION; lia)) as Hp.
  exists (sum_of_squared_digits v). split; [exact Hs|]. split; [lia|].
  destruct (table_entry v Hv) as [b [Hb Ht]].
  destruct (table_entry (sum_of_squared_digits v) ltac:(lia)) as [b' [Hb' Ht']].
  specialize (Ht (S chain_fuel) (Nat.le_succ_diag_r _)).
  rewrite to_1_while_S in Ht.
  destruct (Z.eqb_spec v 1); [contradiction|].
  destruct (Z.eqb_spec v 89); [contradiction|].
  rewrite Hs in Ht. cbn [bind] in Ht.
  rewrite (Ht' chain_fuel (le_n _)) in Ht. injection Ht as ->.
  rewrite Hb, Hb'. reflexivity.
Qed.

Lemma cached_chain_while_S (fuel : nat) (st : BruteForceMethodCached.state)
    (cur : Z) (chain : list Z) :
  BruteForceMethodCached.chain_while (S fuel) st cur chain
  = val <- squigit cur ;;
    to_89 <- (if val =? 89 then Ok true
              else vec_get (BruteForceMethodCached.numbers_that_goto_89 st) val) ;;
    if to_89 then Ok (false, chain)
    else
      to_1 <- (if val =? 1 then Ok true
               else vec_get (BruteForceMethodCached.numbers_that_goto_1 st) val) ;;
      if to_1 then Ok (true, chain)
      else BruteForceMethodCached.chain_while fuel st val (chain ++ [val]).
Proof. reflexivity. Qed.

Lemma table_1_89 :
  arr_get squigits_to_1 1 = Ok true /\ arr_get squigits_to_1 89 = Ok false.
Proof. split; vm_compute; reflexivity. Qed.

(** With sound caches the inner loop returns the verdict of the table for
    [squigit cur], and every value it has collected has that verdict. *)
Lemma cached_chain_sound (st : BruteForceMethodCached.state) :
  caches_sound st ->
  forall fuel cur chain v b b',
    squigit cur = Ok v -> 1 <= v <= 567 ->
    arr_get squigits_to_1 v = Ok b ->
    to_1_while (S fuel) v = Ok b' ->
    (forall x, In x chain -> 1 <= x <= 567 /\ arr_get squigits_to_1 x = Ok b) ->
    exists chain',
      BruteForceMethodCached.chain_while (S fuel) st cur chain = Ok (b, chain') /\
      (forall x, In x chain' ->
                 1 <= x <= 567 /\ arr_get squigits_to_1 x = Ok b).
Proof.
  intros [[Hl89 Hm89] [[Hl1 Hm1] _]].
  destruct table_1_89 as [Ht1 Ht89].
  induction fuel as [|fuel IH]; intros cur chain v b b' Hs Hv Hb Hw Hchain;
    rewrite cached_chain_while_S, Hs; cbn [bind];
    rewrite to_1_while_S in Hw.
  all: destruct (Z.eqb_spec v 89) as [->|H89];
    [cbn [bind]; exists chain; split; [congruence|exact Hchain]|].
  all: destruct (vec_get_in_bounds
                   (BruteForceMethodCached.numbers_that_goto_89 st) v
                   ltac:(lia)) as [x [Hx Hnx]];
    rewrite Hx; cbn [bind];
    (destruct x;
     [apply Hm89 in Hnx; rewrite Z2Nat.id in Hnx by lia;
      exists chain; split; [congruence|exact Hchain]|]).
  all: destruct (Z.eqb_spec v 1) as [->|H1];
    [cbn [bind]; exists chain; split; [congruence|exact Hchain]|].
  all: destruct (vec_get_in_bounds
                   (BruteForceMethodCached.numbers_that_goto_1 st) v
                   ltac:(lia)) as [y [Hy Hny]];
    rewrite Hy; cbn [bind];
    (destruct y;
     [apply Hm1 in Hny; rewrite Z2Nat.id in Hny by lia;
      exists chain; split; [congruence|exact Hchain]|]).
  all: destruct (squigit_same_verdict v Hv H1 H89) as [v' [Hs' [Hv' Hb']]];
    rewrite Hs' in Hw; cbn [bind] in Hw.
  - discriminate.
  - apply (IH v (chain ++ [v]) v' b b' Hs' Hv'); [congruence|exact Hw|].
    intros z Hz. apply in_app_or in Hz.
    destruct Hz as [Hz|[<-|[]]]; [apply Hchain; exact Hz|].
    split; [exact Hv|exact Hb].
Qed.

Lemma cached_body_sound (fuel : nat) (i : Z) (st : BruteForceMethodCached.state) :
  (chain_fuel <= fuel)%nat -> 1 <= i < TEN_MILLION -> caches_sound st ->
  exists st',
    BruteForceMethodCached.body fuel i st = Ok st' /\
    caches_sound st' /\
    BruteForceMethodCached.numbers_ending_with_89 st'
    = wrap (BruteForceMethodCached.numbers_ending_with_89 st
            + reaches_89 (digit_squares 7 i)).
Proof.
  intros Hf Hi Hst.
  destruct (squigit_below_ten_million i ltac:(lia)) as [Hs Hr].
  pose proof (squigit_positive i Hi) as Hp.
  rewrite <- sum_of_squared_digits_7 by lia.
  destruct (table_entry (sum_of_squared_digits i) ltac:(lia)) as [b [Hb Ht]].
  destruct fuel as [|fuel]; [unfold chain_fuel in Hf; lia|].
  destruct (cached_chain_sound st Hst fuel i [] _ b b Hs ltac:(lia) Hb
              (Ht _ Hf)) as [chain [Hchain Hall]].
  { intros x []. }
  unfold BruteForceMethodCached.body. rewrite Hchain. cbn [bind].
  unfold reaches_89. rewrite Hb.
  destruct Hst as [H89 [H1 Hcount]].
  destruct b.
  - destruct (mark_all_sound true chain _ H1 Hall) as [c1 [Hc1 Hs1]].
    rewrite Hc1. cbn [bind]. eexists. split; [reflexivity|].
    cbn [BruteForceMethodCached.numbers_that_goto_89
           BruteForceMethodCached.numbers_that_goto_1
           BruteForceMethodCached.numbers_ending_with_89].
    split; [split; [exact H89|split; [exact Hs1|exact Hcount]]|].
    rewrite Z.add_0_r, wrap_small by exact Hcount. reflexivity.
  - destruct (mark_all_sound false chain _ H89 Hall) as [c89 [Hc89 Hs89]].
    rewrite Hc89. cbn [bind]. eexists. split; [reflexivity|].
    cbn [BruteForceMethodCached.numbers_that_goto_89
           BruteForceMethodCached.numbers_that_goto_1
           BruteForceMethodCached.numbers_ending_with_89].
    split; [split; [exact Hs89|split; [exact H1|apply wrap_range]]|].
    reflexivity.
Qed.

(** A loop that keeps an invariant and adds [f i] to a counter. *)
Lemma for_loop_invariant {S : Type} (Inv : S -> Prop) (count : S -> Z)
    (f : Z -> Z) (body : Z -> S -> result S) (n : nat) :
  forall lo s,
    Inv s -> 0 <= count s < 2 ^ 32 ->
    (forall i s0, lo <= i < lo + Z.of_nat n -> Inv s0 ->
       exists s1, body i s0 = Ok s1 /\ Inv s1 /\
                  count s1 = wrap (count s0 + f i)) ->
    exists s', for_loop n lo body s = Ok s' /\ Inv s' /\
               count s' = wrap (count s + sum_range n lo f).
Proof.
  induction n as [|n IH]; intros lo s Hinv Hc Hbody.
  - exists s. split; [reflexivity|]. split; [exact Hinv|].
    cbn [sum_range]. rewrite Z.add_0_r, wrap_small by exact Hc. reflexivity.
  - rewrite Nat2Z.inj_succ in Hbody.
    destruct (Hbody lo s ltac:(lia) Hinv) as [s1 [Hs1 [Hinv1 Hc1]]].
    destruct (IH (lo + 1) s1 Hinv1) as [s' [Hs' [Hinv' Hc']]].
    + rewrite Hc1. apply wrap_range.
    + intros i s0 Hi. apply Hbody. lia.
    + exists s'. cbn [for_loop sum_range]. rewrite Hs1. cbn [bind].
      split; [exact Hs'|]. split; [exact Hinv'|].
      rewrite Hc', Hc1, wrap_add_l, Z.add_assoc. reflexivity.
Qed.

Lemma resized_state_sound : caches_sound resized_state.
Proof.
  assert (H : forall b, cache_sound b (repeat false 568)).
  { intros b. split; [apply repeat_length|].
    intros n Hn. apply nth_error_In, repeat_spec in Hn. discriminate. }
  split; [apply H|]. split; [apply H|]. cbn. lia.
Qed.

(** The loop of the cached strategy is right: started from caches of 568
    elements it returns the count of the other strategies. *)
Lemma cached_solve_resized (fuel : nat) :
  (chain_fuel <= fuel)%nat ->
  BruteForceMethodCached.solve_from resized_state fuel = Ok 8581146.
Proof.
  intros Hf. unfold BruteForceMethodCached.solve_from, for_range.
  destruct (for_loop_invariant caches_sound
              BruteForceMethodCached.numbers_ending_with_89
              (fun i => reaches_89 (digit_squares 7 i))
              (BruteForceMethodCached.body fuel)
              (Z.to_nat (TEN_MILLION - 1)) 1 resized_state)
    as [st [Hst [_ Hc]]].
  - exact resized_state_sound.
  - cbn. lia.
  - intros i s0 Hi Hinv. apply cached_body_sound; [exact Hf| |exact Hinv].
    unfold TEN_MILLION in *. lia.
  - rewrite Hst. cbn [bind]. rewrite Hc, ten_million_numbers. reflexivity.
Qed.

(** ** Chains *)

Lemma to_1_while_iterate (fuel : nat) :
  forall v b,
    to_1_while fuel v = Ok b ->
    exists n, (n < fuel)%nat /\ iterate_squigit n v = Ok (if b then 1 else 89).
Proof.
  induction fuel as [|fuel IH]; intros v b H; [discriminate|].
  rewrite to_1_while_S in H.
  destruct (Z.eqb_spec v 1) as [->|H1].
  - injection H as <-. exists 0%nat. split; [lia|reflexivity].
  - destruct (Z.eqb_spec v 89) as [->|H89].
    + injection H as <-. exists 0%nat. split; [lia|reflexivity].
    + destruct (squigit v) as [v'|e] eqn:Hv; [|discriminate].
      cbn [bind] in H. destruct (IH v' b H) as [n [Hn Hit]].
      exists (S n). split; [lia|].
      cbn [iterate_squigit]. rewrite Hv. exact Hit.
Qed.

(** C7: from every start below ten million the chain reaches 1 or 89
    within [chain_fuel] applications of [squigit], and the inner loop of the
    brute-force strategy returns. *)
Theorem chain_reaches_1_or_89 (i : Z) :
  1 <= i < 10000000 ->
  (exists n, (1 <= n <= chain_fuel)%nat /\
             (iterate_squigit n i = Ok 1 \/ iterate_squigit n i = Ok 89)) /\
  (forall fuel c, (chain_fuel <= fuel)%nat ->
                  exists c', BruteForceMethod.chain_while fuel i c 0 = Ok c').
Proof.
  intros Hi.
  destruct (squigit_below_ten_million i ltac:(unfold TEN_MILLION; lia))
    as [Hs Hr].
  pose proof (squigit_positive i ltac:(unfold TEN_MILLION; lia)) as Hp.
  destruct (table_entry (sum_of_squared_digits i) ltac:(lia)) as [b [Hb Ht]].
  split.
  - destruct (to_1_while_iterate _ _ _ (Ht chain_fuel (le_n _))) as [n [Hn Hit]].
    exists (S n). split; [lia|].
    cbn [iterate_squigit]. rewrite Hs. cbn [bind].
    destruct b; [left|right]; exact Hit.
  - intros fuel c Hf.
    destruct fuel as [|fuel]; [unfold chain_fuel in Hf; lia|].
    rewrite (chain_while_to_1 fuel i c 0 _ b Hs (Ht _ Hf)).
    eexists. reflexivity.
Qed.

Lemma chain_reaches_1_or_89_witness :
  1 <= 9999999 < 10000000 /\
  exists n, (1 <= n <= chain_fuel)%nat /\
            (iterate_squigit n 9999999 = Ok 1 \/
             iterate_squigit n 9999999 = Ok 89).
Proof.
  split; [lia|]. apply (chain_reaches_1_or_89 9999999). lia.
Defined.

(** ** Reads of the table *)

Lemma slots_checked : forallb slot_state_ok (zrange 1024 0) = true.
Proof. vm_compute. reflexivity. Qed.

Lemma table_length : length squigits_to_1 = 1024%nat.
Proof. vm_compute. reflexivity. Qed.

(** The initialised slots of the table are exactly 1..567. *)
Lemma table_initialised (j : Z) :
  0 <= j ->
  (exists b, arr_get squigits_to_1 j = Ok b) <-> 1 <= j <= 567.
Proof.
  intros Hj. destruct (Z_lt_ge_dec j 1024) as [Hlt|Hge].
  - pose proof slots_checked as H. rewrite forallb_forall in H.
    specialize (H j). rewrite In_zrange in H.
    specialize (H ltac:(lia)). unfold slot_state_ok in H.
    destruct (arr_get squigits_to_1 j) as [b|e].
    + split; [lia|]. intros _. exists b. reflexivity.
    + split; [intros [b Hb]; discriminate|].
      intros Hr. destruct e; try discriminate.
      apply negb_true_iff in H. lia.
  - split; [|lia]. intros [b Hb]. exfalso.
    unfold arr_get, vec_get in Hb.
    assert (Hn : nth_error squigits_to_1 (Z.to_nat j) = None).
    { apply nth_error_None. rewrite table_length. lia. }
    rewrite Hn in Hb. discriminate.
Qed.

Lemma digits_reads_checked : forallb digits_read_ok combinations_7 = true.
Proof. vm_compute. reflexivity. Qed.

Lemma digits_guard (t : bool_array) (combo : list Z) (ans : Z) :
  DigitsMethod.squigit_val combo = Ok 0 ->
  DigitsMethod.body t combo ans = Ok ans.
Proof. intros H. unfold DigitsMethod.body. rewrite H. reflexivity. Qed.

Lemma all_zero_combination : In [0; 0; 0; 0; 0; 0; 0] combinations_7.
Proof. vm_compute. left. reflexivity. Qed.

(** ** The multiset-permutation count *)

Lemma fact_small (c : Z) :
  1 <= c <= 7 -> DigitsMethod.fact (wrap c) = Z.of_nat (fact (Z.to_nat c)).
Proof.
  intros H.
  assert (C : c = 1 \/ c = 2 \/ c = 3 \/ c = 4 \/ c = 5 \/ c = 6 \/ c = 7)
    by lia.
  destruct C as [->|[->|[->|[->|[->|[->| ->]]]]]]; vm_compute; reflexivity.
Qed.

Lemma repeat_count_cons (x d : Z) (combo : list Z) :
  Z.of_nat (repeat_count (x :: combo) d)
  = (if x =? d then 1 else 0) + Z.of_nat (repeat_count combo d).
Proof.
  unfold repeat_count. cbn [count_occ].
  destruct (Z.eq_dec x d) as [E|E]; destruct (Z.eqb_spec x d); lia.
Qed.

Lemma count_step_digit (x : Z) (a0 a1 a2 a3 a4 a5 a6 a7 a8 a9 : Z) :
  digit x ->
  DigitsMethod.count_step x [a0; a1; a2; a3; a4; a5; a6; a7; a8; a9]
  = Ok [a0 + (if x =? 0 then 1 else 0); a1 + (if x =? 1 then 1 else 0);
        a2 + (if x =? 2 then 1 else 0); a3 + (if x =? 3 then 1 else 0);
        a4 + (if x =? 4 then 1 else 0); a5 + (if x =? 5 then 1 else 0);
        a6 + (if x =? 6 then 1 else 0); a7 + (if x =? 7 then 1 else 0);
        a8 + (if x =? 8 then 1 else 0); a9 + (if x =? 9 then 1 else 0)].
Proof.
  intros Hx. split_digit Hx; cbn; rewrite ?Z.add_0_r; reflexivity.
Qed.

Lemma count_duplicates_from (combo : list Z) :
  Forall digit combo ->
  forall a0 a1 a2 a3 a4 a5 a6 a7 a8 a9 : Z,
    for_each combo DigitsMethod.count_step
      [a0; a1; a2; a3; a4; a5; a6; a7; a8; a9]
    = Ok [a0 + Z.of_nat (repeat_count combo 0);
          a1 + Z.of_nat (repeat_count combo 1);
          a2 + Z.of_nat (repeat_count combo 2);
          a3 + Z.of_nat (repeat_count combo 3);
          a4 + Z.of_nat (repeat_count combo 4);
          a5 + Z.of_nat (repeat_count combo 5);
          a6 + Z.of_nat (repeat_count combo 6);
          a7 + Z.of_nat (repeat_count combo 7);
          a8 + Z.of_nat (repeat_count combo 8);
          a9 + Z.of_nat (repeat_count combo 9)].
Proof.
  induction 1 as [|x combo Hx Hall IH]; intros.
  - cbn. rewrite !Z.add_0_r. reflexivity.
  - cbn [for_each]. rewrite count_step_digit by exact Hx. cbn [bind].
    rewrite IH, !repeat_count_cons. f_equal.
    repeat (apply (f_equal2 cons); [lia|]). reflexivity.
Qed.

Lemma count_duplicates_counts (combo : list Z) :
  Forall digit combo ->
  DigitsMethod.count_duplicates combo
  = Ok (map (fun d => Z.of_nat (repeat_count combo d)) DigitsMethod.nums).
Proof.
  intros H. unfold DigitsMethod.count_duplicates.
  change (repeat 0 10) with [0; 0; 0; 0; 0; 0; 0; 0; 0; 0].
  rewrite count_duplicates_from by exact H.
  rewrite !Z.add_0_l. reflexivity.
Qed.

Lemma divide_step_count (duplicates : list Z) (i sn : Z) (c : nat) :
  vec_get duplicates i = Ok (Z.of_nat c) -> (c <= 7)%nat ->
  DigitsMethod.divide_step duplicates i sn = Ok (sn / Z.of_nat (fact c)).
Proof.
  intros Hget Hc. unfold DigitsMethod.divide_step. rewrite Hget. cbn [bind].
  destruct (Z.ltb_spec 0 (Z.of_nat c)) as [Hpos|Hzero].
  - rewrite fact_small, Nat2Z.id by lia.
    pose proof (lt_O_fact c) as Hf.
    destruct (Z.eqb_spec (Z.of_nat (fact c)) 0); [lia|reflexivity].
  - assert (c = 0%nat) by lia. subst c.
    change (Z.of_nat (fact 0)) with 1. rewrite Z.div_1_r. reflexivity.
Qed.

Lemma fact_pos (n : nat) : 0 < Z.of_nat (fact n).
Proof. pose proof (lt_O_fact n). lia. Qed.

Lemma factorial_product_pos (combo : list Z) : 0 < factorial_product combo.
Proof.
  unfold factorial_product.
  induction DigitsMethod.nums as [|d l IH]; cbn [fold_right]; [lia|].
  pose proof (fact_pos (repeat_count combo d)). nia.
Qed.

(** What the loops of lines 340-353 compute for a combination of seven
    digits. *)
Lemma starting_numbers_formula (combo : list Z) :
  length combo = 7%nat -> Forall digit combo ->
  DigitsMethod.starting_numbers combo = Ok (multiset_permutations combo).
Proof.
  intros Hlen Hall.
  assert (Hc : forall d, (repeat_count combo d <= 7)%nat).
  { intros d. unfold repeat_count. rewrite <- Hlen. apply count_occ_bound. }
  unfold DigitsMethod.starting_numbers, multiset_permutations.
  rewrite count_duplicates_counts by exact Hall. cbn [bind].
  rewrite Hlen. unfold for_range.
  change (Z.to_nat (10 - 0)) with 10%nat.
  change (DigitsMethod.fact (wrap (Z.of_nat 7))) with (Z.of_nat (fact 7)).
  cbn [map DigitsMethod.nums].
  repeat (rewrite for_loop_S;
          erewrite divide_step_count by (try reflexivity; apply Hc);
          cbn [bind]).
  cbn [for_loop]. f_equal.
  unfold factorial_product. cbn [fold_right DigitsMethod.nums].
  rewrite Z.mul_1_r.
  repeat (rewrite Z.div_div;
          [|match goal with
            | |- Z.of_nat (fact ?n) <> 0 => pose proof (fact_pos n); lia
            end
           |repeat apply Z.mul_pos_pos; apply fact_pos]).
  reflexivity.
Qed.

(** The product of the factorials of two numbers divides the factorial of
    their sum. *)
Lemma fact_mul_divide (a : nat) :
  forall b, Nat.divide (fact a * fact b) (fact (a + b)).
Proof.
  induction a as [|a IHa]; intros b.
  - cbn [fact Nat.add]. rewrite Nat.mul_1_l. apply Nat.divide_refl.
  - induction b as [|b IHb].
    + rewrite Nat.add_0_r. change (fact 0) with 1%nat. rewrite Nat.mul_1_r.
      apply Nat.divide_refl.
    + destruct (IHa (S b)) as [z1 H1]. destruct IHb as [z2 H2].
      exists (z1 + z2)%nat.
      replace (fact (S a + S b))
        with (S a * fact (a + S b) + S b * fact (S a + b))%nat.
      * rewrite H1, H2.
        change (fact (S a)) with (S a * fact a)%nat.
        change (fact (S b)) with (S b * fact b)%nat. ring.
      * replace (a + S b)%nat with (S a + b)%nat by lia.
        change (fact (S a + S b)) with ((S a + S b) * fact (a + S b))%nat.
        replace (a + S b)%nat with (S a + b)%nat by lia. ring.
Qed.

Lemma fact_list_divide (l : list nat) :
  Nat.divide (fold_right (fun c acc => fact c * acc)%nat 1%nat l)
             (fact (list_sum l)).
Proof.
  induction l as [|c l IH]; cbn [fold_right list_sum].
  - apply Nat.divide_refl.
  - apply Nat.divide_trans with (fact c * fact (list_sum l))%nat.
    + apply Nat.mul_divide_mono_l. exact IH.
    + apply fact_mul_divide.
Qed.

Lemma repeat_counts_sum (combo : list Z) :
  Forall digit combo ->
  list_sum (map (repeat_count combo) DigitsMethod.nums) = length combo.
Proof.
  induction 1 as [|x combo Hx Hall IH].
  - reflexivity.
  - cbn [length]. rewrite <- IH. apply Nat2Z.inj.
    cbn [map DigitsMethod.nums]. unfold list_sum. cbn [fold_right].
    rewrite Nat2Z.inj_succ, !Nat2Z.inj_add, !repeat_count_cons.
    split_digit Hx; simpl (_ =? _); lia.
Qed.

Lemma factorial_product_nat (combo : list Z) :
  factorial_product combo
  = Z.of_nat (fold_right (fun c acc => fact c * acc)%nat 1%nat
                (map (repeat_count combo) DigitsMethod.nums)).
Proof.
  unfold factorial_product.
  induction DigitsMethod.nums as [|d l IH]; cbn [fold_right map].
  - reflexivity.
  - rewrite Nat2Z.inj_mul, IH. reflexivity.
Qed.

(** The division of lines 349-353 leaves no remainder. *)
Lemma multiset_permutations_exact (combo : list Z) :
  Forall digit combo ->
  multiset_permutations combo * factorial_product combo
  = Z.of_nat (fact (length combo)).
Proof.
  intros Hall. unfold multiset_permutations.
  pose proof (factorial_product_pos combo) as Hpos.
  pose proof (fact_list_divide (map (repeat_count combo) DigitsMethod.nums))
    as [z Hz].
  rewrite repeat_counts_sum in Hz by exact Hall.
  rewrite Hz, Nat2Z.inj_mul, <- factorial_product_nat.
  rewrite Z.div_mul by lia. reflexivity.
Qed.

Lemma factorial_product_no_repeat (combo : list Z) :
  NoDup combo -> factorial_product combo = 1.
Proof.
  intros Hnd. unfold factorial_product.
  induction DigitsMethod.nums as [|d l IH]; cbn [fold_right]; [reflexivity|].
  rewrite IH.
  pose proof (proj1 (NoDup_count_occ Z.eq_dec combo) Hnd d) as Hd.
  unfold repeat_count.
  destruct (count_occ Z.eq_dec combo d) as [|[|n]]; [reflexivity|reflexivity|lia].
Qed.

(** C8: the count that the digit strategy computes for a combination of
    seven digits is 7! divided, without remainder, by the product of the
    factorials of the repeat counts; it is 5040 when no digit repeats and 1
    when the seven digits are the same. *)
Theorem starting_numbers_count (combo : list Z) :
  length combo = 7%nat -> Forall digit combo ->
  DigitsMethod.starting_numbers combo = Ok (multiset_permutations combo) /\
  multiset_permutations combo * factorial_product combo = 5040 /\
  (NoDup combo -> DigitsMethod.starting_numbers combo = Ok 5040) /\
  ((exists d, combo = repeat d 7) ->
   DigitsMethod.starting_numbers combo = Ok 1).
Proof.
  intros Hlen Hall.
  pose proof (starting_numbers_formula combo Hlen Hall) as Hsn.
  split; [exact Hsn|]. split; [|split].
  - rewrite multiset_permutations_exact by exact Hall.
    rewrite Hlen. reflexivity.
  - intros Hnd. rewrite Hsn. f_equal. unfold multiset_permutations.
    rewrite factorial_product_no_repeat by exact Hnd.
    rewrite Hlen. reflexivity.
  - intros [d Hd]. rewrite Hsn. f_equal. subst combo.
    assert (Hdig : digit d) by (inversion Hall; assumption).
    split_digit Hdig; vm_compute; reflexivity.
Qed.

Lemma starting_numbers_count_witness :
  DigitsMethod.starting_numbers [0; 1; 2; 3; 4; 5; 6] = Ok 5040 /\
  DigitsMethod.starting_numbers [5; 5; 5; 5; 5; 5; 5] = Ok 1.
Proof.
  split.
  - apply (starting_numbers_count [0; 1; 2; 3; 4; 5; 6]).
    + reflexivity.
    + repeat constructor; unfold digit; lia.
    + repeat constructor; cbn; lia.
  - apply (starting_numbers_count [5; 5; 5; 5; 5; 5; 5]).
    + reflexivity.
    + repeat constructor; unfold digit; lia.
    + exists 5. reflexivity.
Defined.


(** ** The combinations of seven digits *)

Lemma seven_digits_spec (combo : list Z) :
  seven_digits combo = true <-> length combo = 7%nat /\ Forall digit combo.
Proof.
  unfold seven_digits. rewrite andb_true_iff, Nat.eqb_eq, forallb_forall, Forall_forall.
  split; intros [Hl Hd]; (split; [exact Hl|]); intros d Hin;
    specialize (Hd d Hin); unfold digit in *; lia.
Qed.

Lemma combinations_7_seven_digits : forallb seven_digits combinations_7 = true.
Proof. vm_compute. reflexivity. Qed.

Lemma combinations_7_valid (combo : list Z) :
  In combo combinations_7 -> length combo = 7%nat /\ Forall digit combo.
Proof.
  intros Hin. apply seven_digits_spec.
  pose proof combinations_7_seven_digits as H.
  rewrite forallb_forall in H. apply H. exact Hin.
Qed.

Lemma increasing_head (a : Z) (l : list Z) :
  increasing (a :: l) = true -> forall x, In x l -> a < x.
Proof.
  revert a. induction l as [|b l IH]; intros a H x Hin; [destruct Hin|].
  cbn [increasing] in H. apply andb_true_iff in H. destruct H as [Hab Hl].
  apply Z.ltb_lt in Hab. destruct Hin as [<-|Hin]; [exact Hab|].
  specialize (IH b Hl x Hin). lia.
Qed.

Lemma increasing_NoDup (l : list Z) : increasing l = true -> NoDup l.
Proof.
  induction l as [|a l IH]; intros H; constructor.
  - intros Hin. pose proof (increasing_head a l H a Hin). lia.
  - apply IH. destruct l as [|b l]; [reflexivity|].
    cbn [increasing] in H. apply andb_true_iff in H. apply H.
Qed.

Lemma descending_tail (a : Z) (l : list Z) :
  descending (a :: l) = true -> descending l = true.
Proof.
  destruct l as [|b l]; [reflexivity|].
  cbn [descending]. intros H. apply andb_true_iff in H. apply H.
Qed.

Lemma descending_head (a : Z) (l : list Z) :
  descending (a :: l) = true -> forall x, In x l -> x <= a.
Proof.
  revert a. induction l as [|b l IH]; intros a H x Hin; [destruct Hin|].
  pose proof (descending_tail _ _ H) as Hl.
  cbn [descending] in H. apply andb_true_iff in H. destruct H as [Hab _].
  apply Z.leb_le in Hab. destruct Hin as [<-|Hin]; [exact Hab|].
  specialize (IH b Hl x Hin). lia.
Qed.

(** Two descending lists with the same elements are the same list. *)
Lemma descending_unique (l1 : list Z) :
  forall l2,
    descending l1 = true -> descending l2 = true ->
    Permutation l1 l2 -> l1 = l2.
Proof.
  induction l1 as [|a l1 IH]; intros l2 H1 H2 Hp.
  - apply Permutation_nil in Hp. subst. reflexivity.
  - destruct l2 as [|b l2].
    + apply Permutation_sym, Permutation_nil in Hp. discriminate.
    + assert (Hab : a = b).
      { assert (Ha : In a (b :: l2))
          by (apply (Permutation_in _ Hp); left; reflexivity).
        assert (Hb : In b (a :: l1))
          by (apply (Permutation_in _ (Permutation_sym Hp)); left; reflexivity).
        destruct Ha as [Ha|Ha]; [lia|].
        destruct Hb as [Hb|Hb]; [lia|].
        pose proof (descending_head _ _ H2 a Ha).
        pose proof (descending_head _ _ H1 b Hb). lia. }
      subst b. f_equal. apply IH.
      * apply (descending_tail _ _ H1).
      * apply (descending_tail _ _ H2).
      * apply (Permutation_cons_inv Hp).
Qed.

Lemma combinations_7_descending : forallb descending combinations_7 = true.
Proof. vm_compute. reflexivity. Qed.

Lemma combinations_7_increasing :
  increasing (map rev_key combinations_7) = true.
Proof. vm_compute. reflexivity. Qed.

Lemma combinations_7_NoDup : NoDup combinations_7.
Proof.
  apply (NoDup_map_inv rev_key), increasing_NoDup, combinations_7_increasing.
Qed.

Lemma combinations_7_distinct (i j : nat) (c1 c2 : list Z) :
  nth_error combinations_7 i = Some c1 ->
  nth_error combinations_7 j = Some c2 ->
  Permutation c1 c2 -> i = j.
Proof.
  intros Hi Hj Hp.
  pose proof combinations_7_descending as Hd. rewrite forallb_forall in Hd.
  assert (c1 = c2).
  { apply descending_unique; [| |exact Hp]; apply Hd.
    - apply (nth_error_In _ _ Hi).
    - apply (nth_error_In _ _ Hj). }
  subst c2.
  apply (proj1 (NoDup_nth_error combinations_7) combinations_7_NoDup).
  - apply nth_error_Some. rewrite Hi. discriminate.
  - rewrite Hi, Hj. reflexivity.
Qed.

Lemma remove_element_head (e : Z) (rest : list Z) :
  DigitsMethod.remove_element (e :: rest) e = rest.
Proof. cbn [DigitsMethod.remove_element]. rewrite Z.eqb_refl. reflexivity. Qed.

Lemma combination_loop_keeps (sub : list Z -> result (list (list Z))) :
  forall elements to_use acc res,
    DigitsMethod.combination_loop sub elements to_use acc = Ok res ->
    incl acc res.
Proof.
  induction elements as [|e rest IH]; intros to_use acc res H.
  - injection H as <-. apply incl_refl.
  - cbn [DigitsMethod.combination_loop] in H.
    destruct (sub to_use) as [combos|err]; [|discriminate].
    cbn [bind] in H. apply IH in H.
    intros c Hc. apply H, in_or_app. left. exact Hc.
Qed.

Section CombinationLoop.

Variable sub : list Z -> result (list (list Z)).
Variable k : nat.

(** The recursive call finds every multiset of size [k]. *)
Hypothesis sub_complete :
  forall E m,
    length m = k -> incl m E ->
    exists cs c, sub E = Ok cs /\ In c cs /\ Permutation c m.

Lemma sub_total (e : Z) (rest : list Z) : exists cs, sub (e :: rest) = Ok cs.
Proof.
  destruct (sub_complete (e :: rest) (repeat e k)) as [cs [_ [H _]]].
  - apply repeat_length.
  - intros x Hx. apply repeat_spec in Hx. subst x. left. reflexivity.
  - exists cs. exact H.
Qed.

Lemma combination_loop_total :
  forall elements acc,
    exists res,
      DigitsMethod.combination_loop sub elements elements acc = Ok res.
Proof.
  induction elements as [|e rest IH]; intros acc.
  - exists acc. reflexivity.
  - cbn [DigitsMethod.combination_loop].
    destruct (sub_total e rest) as [cs Hcs]. rewrite Hcs. cbn [bind].
    rewrite remove_element_head. apply IH.
Qed.

(** Then the loop finds every multiset of size [k + 1]. *)
Lemma combination_loop_complete :
  forall elements acc m,
    length m = S k -> incl m elements ->
    exists res c,
      DigitsMethod.combination_loop sub elements elements acc = Ok res /\
      In c res /\ Permutation c m.
Proof.
  induction elements as [|e rest IH]; intros acc m Hlen Hincl.
  - destruct m as [|x m]; [discriminate|].
    destruct (Hincl x (or_introl eq_refl)).
  - cbn [DigitsMethod.combination_loop]. rewrite remove_element_head.
    destruct (in_dec Z.eq_dec e m) as [Hin|Hout].
    + apply in_split in Hin. destruct Hin as [l1 [l2 ->]].
      destruct (sub_complete (e :: rest) (l1 ++ l2)) as [cs [c [Hcs [Hc Hp]]]].
      * rewrite length_app in *. cbn [length] in Hlen. lia.
      * intros x Hx. apply Hincl. apply in_app_or in Hx.
        apply in_or_app. destruct Hx; [left|right; right]; assumption.
      * rewrite Hcs. cbn [bind].
        destruct (combination_loop_total rest
                    (acc ++ map (fun combo => combo ++ [e]) cs)) as [res Hres].
        exists res, (c ++ [e]). split; [exact Hres|]. split.
        -- apply (combination_loop_keeps _ _ _ _ _ Hres).
           apply in_or_app. right.
           apply (in_map (fun combo => combo ++ [e])). exact Hc.
        -- apply Permutation_trans with (e :: c).
           ++ apply Permutation_sym, Permutation_cons_append.
           ++ apply Permutation_trans with (e :: l1 ++ l2).
              ** apply perm_skip. exact Hp.
              ** apply Permutation_middle.
    + destruct (sub_total e rest) as [cs Hcs]. rewrite Hcs. cbn [bind].
      apply IH; [exact Hlen|].
      intros x Hx. destruct (Hincl x Hx) as [<-|Hr]; [contradiction|exact Hr].
Qed.

End CombinationLoop.

Lemma combination_complete (k : nat) :
  forall fuel E m,
    (k <= fuel)%nat -> (k < 100)%nat ->
    length m = S k -> incl m E ->
    exists cs c,
      DigitsMethod.combination fuel E (Z.of_nat (S k)) = Ok cs /\
      In c cs /\ Permutation c m.
Proof.
  induction k as [|k IH]; intros fuel E m Hfuel Hk Hlen Hincl;
    rewrite combination_unfold.
  - change (Z.of_nat 1 =? 1) with true. cbv iota.
    destruct m as [|x [|y m]]; try discriminate.
    exists (map (fun element => [element]) E), [x].
    split; [reflexivity|]. split; [|apply Permutation_refl].
    apply (in_map (fun element => [element])).
    apply Hincl. left. reflexivity.
  - destruct (Z.eqb_spec (Z.of_nat (S (S k))) 1) as [Heq|_]; [lia|].
    destruct fuel as [|fuel]; [lia|].
    replace (wrap (Z.of_nat (S (S k)) - 1)) with (Z.of_nat (S k))
      by (rewrite wrap_small; lia).
    apply (combination_loop_complete _ (S k)); [|exact Hlen|exact Hincl].
    intros E' m' Hlen' Hincl'. apply IH; [lia|lia|exact Hlen'|exact Hincl'].
Qed.

Lemma digits_in_nums (m : list Z) : Forall digit m -> incl m DigitsMethod.nums.
Proof.
  intros H x Hx. rewrite Forall_forall in H. specialize (H x Hx).
  split_digit H; cbn; tauto.
Qed.

(** C2: [combination] on the digits 0..9 with r = 7 returns 11440
    combinations of seven digits; no two of them are the same multiset, and
    every multiset of seven digits is among them. *)
Theorem combination_7_multisets :
  (forall fuel, (6 <= fuel)%nat ->
     DigitsMethod.combination fuel DigitsMethod.nums 7 = Ok combinations_7) /\
  Z.of_nat (length combinations_7) = 11440 /\
  (forall c, In c combinations_7 -> length c = 7%nat /\ Forall digit c) /\
  (forall i j c1 c2,
     nth_error combinations_7 i = Some c1 ->
     nth_error combinations_7 j = Some c2 ->
     Permutation c1 c2 -> i = j) /\
  (forall m, length m = 7%nat -> Forall digit m ->
     exists c, In c combinations_7 /\ Permutation c m).
Proof.
  split; [exact combination_nums_7|].
  split; [vm_compute; reflexivity|].
  split; [exact combinations_7_valid|].
  split; [exact combinations_7_distinct|].
  intros m Hlen Hdig.
  destruct (combination_complete 6 6 DigitsMethod.nums m) as [cs [c [Hcs [Hc Hp]]]];
    [lia|lia|exact Hlen|apply digits_in_nums; exact Hdig|].
  change (Z.of_nat 7) with 7 in Hcs.
  rewrite combination_nums_7 in Hcs by lia. injection Hcs as <-.
  exists c. split; assumption.
Qed.

Lemma combination_7_multisets_witness :
  exists c, In c combinations_7 /\ Permutation c [3; 1; 4; 1; 5; 9; 2].
Proof.
  apply (proj2 (proj2 (proj2 (proj2 combination_7_multisets)))).
  - reflexivity.
  - repeat constructor; unfold digit; lia.
Defined.

Lemma total_starting_numbers_from (combos : list (list Z)) :
  (forall combo, In combo combos -> length combo = 7%nat /\ Forall digit combo) ->
  forall acc,
    for_each combos
      (fun combo acc => sn <- DigitsMethod.starting_numbers combo ;; Ok (acc + sn))
      acc
    = Ok (acc + total_multiset_permutations combos).
Proof.
  induction combos as [|combo combos IH]; intros Hvalid acc.
  - cbn. rewrite Z.add_0_r. reflexivity.
  - cbn [for_each total_multiset_permutations fold_right].
    destruct (Hvalid combo (or_introl eq_refl)) as [Hl Hd].
    rewrite starting_numbers_formula by assumption. cbn [bind].
    rewrite IH by (intros c Hc; apply Hvalid; right; exact Hc).
    f_equal. unfold total_multiset_permutations. ring.
Qed.

Lemma total_starting_numbers_7 :
  total_starting_numbers combinations_7 = Ok 10000000.
Proof. vm_compute. reflexivity. Qed.

(** C3: over the combinations that the generator returns for the digits
    0..9 and r = 7, the multiset-permutation counts add up to ten million,
    both as the code computes them and by the formula. *)
Theorem permutation_counts_total :
  DigitsMethod.combination 6 DigitsMethod.nums 7 = Ok combinations_7 /\
  total_starting_numbers combinations_7 = Ok 10000000 /\
  total_multiset_permutations combinations_7 = 10000000.
Proof.
  split; [apply combination_nums_7; lia|].
  split; [exact total_starting_numbers_7|].
  pose proof total_starting_numbers_7 as H.
  unfold total_starting_numbers in H.
  rewrite (total_starting_numbers_from _ combinations_7_valid) in H.
  rewrite Z.add_0_l in H.
  congruence.
Qed.

(** ** The four strategies *)

(** C1: with enough fuel for the chains, the brute-force, table and digit
    strategies all return 8581146, while the cached strategy stops at its
    first cache read, [numbers_that_goto_89[1]] on a vector of size 1.  Its
    loop is right: started from caches of 568 elements it returns 8581146
    too. *)
Theorem four_strategies (fuel : nat) :
  (chain_fuel <= fuel)%nat ->
  BruteForceMethod.solve fuel = Ok 8581146 /\
  SquigitsMethod.solve fuel = Ok 8581146 /\
  DigitsMethod.solve fuel = Ok 8581146 /\
  BruteForceMethodCached.solve fuel = Err OutOfBounds /\
  BruteForceMethodCached.solve_from resized_state fuel = Ok 8581146.
Proof.
  intros Hf. split; [|split; [|split; [|split]]].
  - apply brute_force_solve. exact Hf.
  - apply squigits_solve. exact Hf.
  - apply digits_solve. exact Hf.
  - apply cached_solve. unfold chain_fuel in Hf. lia.
  - apply cached_solve_resized. exact Hf.
Qed.

Lemma four_strategies_witness :
  (chain_fuel <= 12)%nat /\
  BruteForceMethod.solve 12 = Ok 8581146 /\
  SquigitsMethod.solve 12 = Ok 8581146 /\
  DigitsMethod.solve 12 = Ok 8581146 /\
  BruteForceMethodCached.solve 12 = Err OutOfBounds /\
  BruteForceMethodCached.solve_from resized_state 12 = Ok 8581146.
Proof.
  split; [unfold chain_fuel; lia|].
  apply (four_strategies 12). unfold chain_fuel. lia.
Defined.

(** C4: [reserve(567)] leaves both caches with the single element of
    their initialiser list, so the first cache read of the run, at index
    [squigit 1 = 1], is already past the size, and [solve] stops there. *)
Theorem cached_reads_out_of_bounds (fuel : nat) :
  (1 <= fuel)%nat ->
  length (BruteForceMethodCached.numbers_that_goto_89
            BruteForceMethodCached.initial_state) = 1%nat /\
  length (BruteForceMethodCached.numbers_that_goto_1
            BruteForceMethodCached.initial_state) = 1%nat /\
  squigit 1 = Ok 1 /\
  vec_get (BruteForceMethodCached.numbers_that_goto_89
             BruteForceMethodCached.initial_state) 1 = Err OutOfBounds /\
  BruteForceMethodCached.chain_while fuel
    BruteForceMethodCached.initial_state 1 [] = Err OutOfBounds /\
  BruteForceMethodCached.solve fuel = Err OutOfBounds.
Proof.
  intros Hf.
  split; [reflexivity|]. split; [reflexivity|].
  split; [vm_compute; reflexivity|]. split; [reflexivity|].
  split; [apply cached_first_read; exact Hf|apply cached_solve; exact Hf].
Qed.

Lemma cached_reads_out_of_bounds_witness :
  (1 <= 12)%nat /\ BruteForceMethodCached.solve 12 = Err OutOfBounds.
Proof.
  split; [lia|]. apply (cached_reads_out_of_bounds 12). lia.
Defined.

Lemma squigits_body_read (i ans : Z) :
  1 <= i < TEN_MILLION ->
  exists s b,
    squigit i = Ok s /\ 1 <= s <= 567 /\
    arr_get squigits_to_1 s = Ok b /\
    forall t, arr_get t s = Ok b ->
              SquigitsMethod.body t i ans = Ok (if b then ans else wrap (ans + 1)).
Proof.
  intros Hi.
  destruct (squigit_below_ten_million i ltac:(lia)) as [Hs Hr].
  pose proof (squigit_positive i Hi) as Hp.
  destruct (table_entry (sum_of_squared_digits i) ltac:(lia)) as [b [Hb _]].
  exists (sum_of_squared_digits i), b.
  split; [exact Hs|]. split; [lia|]. split; [exact Hb|].
  intros t Ht. unfold SquigitsMethod.body.
  rewrite Hs. cbn [bind]. rewrite Ht. cbn [bind].
  destruct b; reflexivity.
Qed.

Lemma digits_body_read (combo : list Z) (ans : Z) :
  In combo combinations_7 ->
  exists sv,
    DigitsMethod.squigit_val combo = Ok sv /\
    ((sv = 0 /\ forall t, DigitsMethod.body t combo ans = Ok ans) \/
     (1 <= sv <= 567 /\
      exists b sn,
        arr_get squigits_to_1 sv = Ok b /\
        DigitsMethod.starting_numbers combo = Ok sn /\
        forall t, arr_get t sv = Ok b ->
                  DigitsMethod.body t combo ans
                  = Ok (if b then ans else wrap (ans + sn)))).
Proof.
  intros Hin.
  pose proof digits_reads_checked as H. rewrite forallb_forall in H.
  specialize (H combo Hin). unfold digits_read_ok in H.
  destruct (DigitsMethod.squigit_val combo) as [sv|e] eqn:Hsv; [|discriminate].
  exists sv. split; [reflexivity|].
  destruct (Z.eqb_spec sv 0) as [->|Hnz].
  - left. split; [reflexivity|]. intros t. apply digits_guard. exact Hsv.
  - right. assert (Hr : 1 <= sv <= 567) by lia. split; [exact Hr|].
    destruct (table_entry sv Hr) as [b [Hb _]].
    destruct (combinations_7_valid combo Hin) as [Hlen Hdig].
    exists b, (multiset_permutations combo).
    split; [exact Hb|].
    split; [apply starting_numbers_formula; assumption|].
    intros t Ht. unfold DigitsMethod.body. rewrite Hsv. cbn [bind].
    destruct (Z.eqb_spec sv 0) as [|_]; [contradiction|].
    rewrite Ht. cbn [bind].
    destruct b; cbn [negb]; [reflexivity|].
    rewrite starting_numbers_formula by assumption. reflexivity.
Qed.

(** C10: the precomputation initialises exactly the slots 1..567 of the
    table.  [SquigitsMethod.body] reads it at [squigit i], which lies in
    1..567 for every [i] of the loop, and returns.  [DigitsMethod.body]
    reads it at the digit-square sum of a combination when that sum is not
    0; the sum then lies in 1..567 and the body returns; when it is 0, as
    for the combination of seven zeros, the body returns before any lookup,
    whatever the table.  Neither body reads another slot: on any array that
    agrees with the table on the slots 1..567 both return the same result,
    and both [solve] functions return. *)
Theorem table_reads_initialised :
  (forall fuel, (chain_fuel <= fuel)%nat ->
     build_squigits_to_1 fuel = Ok squigits_to_1) /\
  (forall j, 0 <= j ->
     (exists b, arr_get squigits_to_1 j = Ok b) <-> 1 <= j <= 567) /\
  (forall i ans, 1 <= i < 10000000 ->
     exists s b, squigit i = Ok s /\ 1 <= s <= 567 /\
                 arr_get squigits_to_1 s = Ok b /\
                 SquigitsMethod.body squigits_to_1 i ans
                 = Ok (if b then ans else wrap (ans + 1))) /\
  (forall combo ans, In combo combinations_7 ->
     exists sv,
       DigitsMethod.squigit_val combo = Ok sv /\
       ((sv = 0 /\ DigitsMethod.body squigits_to_1 combo ans = Ok ans) \/
        (1 <= sv <= 567 /\
         exists b sn,
           arr_get squigits_to_1 sv = Ok b /\
           DigitsMethod.starting_numbers combo = Ok sn /\
           DigitsMethod.body squigits_to_1 combo ans
           = Ok (if b then ans else wrap (ans + sn))))) /\
  (forall t combo ans,
     DigitsMethod.squigit_val combo = Ok 0 ->
     DigitsMethod.body t combo ans = Ok ans) /\
  In [0; 0; 0; 0; 0; 0; 0] combinations_7 /\
  (forall t,
     (forall j, 1 <= j <= 567 -> arr_get t j = arr_get squigits_to_1 j) ->
     (forall i ans, 1 <= i < 10000000 ->
        SquigitsMethod.body t i ans = SquigitsMethod.body squigits_to_1 i ans) /\
     (forall combo ans, In combo combinations_7 ->
        DigitsMethod.body t combo ans
        = DigitsMethod.body squigits_to_1 combo ans)) /\
  (forall fuel, (chain_fuel <= fuel)%nat ->
     SquigitsMethod.solve fuel = Ok 8581146 /\
     DigitsMethod.solve fuel = Ok 8581146).
Proof.
  split; [exact build_squigits_to_1_fuel|].
  split; [exact table_initialised|].
  split; [|split; [|split; [exact digits_guard|
                            split; [exact all_zero_combination|split]]]].
  - intros i ans Hi.
    destruct (squigits_body_read i ans ltac:(unfold TEN_MILLION; lia))
      as [s [b [Hs [Hr [Hb Hbody]]]]].
    exists s, b. repeat split; try assumption; try lia.
    apply Hbody. exact Hb.
  - intros combo ans Hin.
    destruct (digits_body_read combo ans Hin) as [sv [Hsv [[Hz Hbody]|[Hr H]]]];
      exists sv; (split; [exact Hsv|]).
    + left. split; [exact Hz|apply Hbody].
    + right. split; [exact Hr|].
      destruct H as [b [sn [Hb [Hsn Hbody]]]].
      exists b, sn. repeat split; try assumption.
      apply Hbody. exact Hb.
  - intros t Ht. split.
    + intros i ans Hi.
      destruct (squigits_body_read i ans ltac:(unfold TEN_MILLION; lia))
        as [s [b [Hs [Hr [Hb Hbody]]]]].
      rewrite (Hbody t), (Hbody squigits_to_1); try assumption; [reflexivity|].
      rewrite Ht by exact Hr. exact Hb.
    + intros combo ans Hin.
      destruct (digits_body_read combo ans Hin) as [sv [Hsv [[Hz Hbody]|[Hr H]]]].
      * rewrite !Hbody. reflexivity.
      * destruct H as [b [sn [Hb [Hsn Hbody]]]].
        rewrite (Hbody t), (Hbody squigits_to_1); try assumption; [reflexivity|].
        rewrite Ht by exact Hr. exact Hb.
  - intros fuel Hf. split; [apply squigits_solve|apply digits_solve]; exact Hf.
Qed.

Lemma table_reads_initialised_witness :
  exists s b, squigit 9999999 = Ok s /\ 1 <= s <= 567 /\
              arr_get squigits_to_1 s = Ok b /\
              SquigitsMethod.body squigits_to_1 9999999 0
              = Ok (if b then 0 else wrap (0 + 1)).
Proof.
  apply (proj1 (proj2 (proj2 table_reads_initialised)) 9999999 0). lia.
Defined.

(** * Further properties of the helpers *)

(** ** [power] *)

Lemma wrap_mul_l (a b : Z) : wrap (wrap a * b) = wrap (a * b).
Proof. unfold wrap. apply Z.mul_mod_idemp_l. unfold u32_modulus. lia. Qed.

Lemma power_loop_wrap (base : Z) (n : nat) :
  forall ans,
    power_loop n base (wrap ans) = wrap (ans * base ^ Z.of_nat n).
Proof.
  induction n as [|n IH]; intros ans.
  - cbn [power_loop Z.of_nat]. rewrite Z.pow_0_r, Z.mul_1_r. reflexivity.
  - cbn [power_loop]. rewrite wrap_mul_l, IH.
    rewrite Nat2Z.inj_succ, Z.pow_succ_r by lia. f_equal. ring.
Qed.

Lemma power_wrap (base exp : Z) :
  0 <= exp -> power base exp = wrap (base ^ exp).
Proof.
  intros Hexp. unfold power.
  change 1 with (wrap 1). rewrite power_loop_wrap.
  rewrite Z2Nat.id, Z.mul_1_l by exact Hexp. reflexivity.
Qed.

(** X1: [power] is exponentiation modulo 2^32. *)
Theorem power_modular (base exp : Z) :
  0 <= exp -> power base exp = (base ^ exp) mod 2 ^ 32.
Proof. intros Hexp. rewrite power_wrap by exact Hexp. reflexivity. Qed.

Lemma power_modular_witness :
  0 <= 10 /\ power 10 10 = (10 ^ 10) mod 2 ^ 32.
Proof. split; [lia|]. apply (power_modular 10 10). lia. Defined.

Lemma power_10_small : forallb power_10_nonzero (zrange 32 0) = true.
Proof. vm_compute. reflexivity. Qed.

(** X2: the modulus [power(10, i)] of [squigit] vanishes exactly from the 32nd
    iteration on. *)
Theorem power_10_zero (i : Z) :
  0 <= i -> (power 10 i = 0 <-> 32 <= i).
Proof.
  intros Hi. split.
  - intros Hz. destruct (Z_lt_ge_dec i 32) as [Hlt|Hge]; [exfalso|lia].
    pose proof power_10_small as H. rewrite forallb_forall in H.
    specialize (H i). rewrite In_zrange in H. specialize (H ltac:(lia)).
    unfold power_10_nonzero in H. rewrite Hz in H. discriminate.
  - intros Hge. rewrite power_wrap by exact Hi.
    unfold wrap, u32_modulus.
    replace i with (32 + (i - 32)) by lia.
    rewrite Z.pow_add_r by lia.
    rewrite <- Z.mul_mod_idemp_l by lia.
    replace (10 ^ 32 mod 2 ^ 32) with 0 by (vm_compute; reflexivity).
    reflexivity.
Qed.

Lemma power_10_zero_witness :
  0 <= 32 /\ (power 10 32 = 0 <-> 32 <= 32).
Proof. split; [lia|]. apply (power_10_zero 32). lia. Defined.

(** ** [squigit] *)

Lemma squigit_all_u32_witness :
  0 <= 4294967295 < 2 ^ 32 /\
  exists s, squigit 4294967295 = Ok s /\
            (s = sum_of_squared_digits 4294967295 <-> 4294967295 < 2000000000).
Proof. split; [lia|]. apply (squigit_all_u32 4294967295). lia. Defined.

(** On a ten-digit value the nine low digits are summed as they should be,
    and the tenth contributes between 1 and 5. *)
Lemma squigit_ten_digits (val : Z) :
  1000000000 <= val < 2 ^ 32 ->
  exists r, squigit val = Ok (digit_squares 9 val + r) /\ 1 <= r <= 5.
Proof.
  intros Hval. change (2 ^ 32) with 4294967296 in Hval.
  pose proof (digit_squares_bound 9 val) as Hb.
  change (81 * Z.of_nat 9) with 729 in Hb.
  assert (Hloop :
    squigit val
    = r <- squigit_loop 23 (val / 1000000000 * 1000000000) 0 10 ;;
      Ok (wrap (digit_squares 9 val + r))).
  { unfold squigit, squigit_fuel.
    change 32%nat with (9 + 23)%nat.
    replace val with (val * 10 ^ (1 - 1)) at 1
      by (change (10 ^ (1 - 1)) with 1; lia).
    rewrite (squigit_loop_steps 9 23 val 0 1);
      try first [lia | change (10 ^ Z.of_nat 9) with 1000000000; lia
                | change (10 ^ (1 - 1)) with 1;
                  change (2 ^ 32) with 4294967296; lia
                | change (2 ^ 32) with 4294967296; lia].
    change (10 ^ Z.of_nat 9) with 1000000000.
    change (10 ^ (1 + Z.of_nat 9 - 1)) with 1000000000.
    change (1 + Z.of_nat 9) with 10. rewrite Z.add_0_l.
    apply squigit_loop_ans. change (2 ^ 32) with 4294967296. lia. }
  rewrite Hloop. clear Hloop.
  assert (Hh : 1 <= val / 1000000000 <= 4).
  { split; [apply Z.div_le_lower_bound; lia|].
    assert (val / 1000000000 < 5) by (apply Z.div_lt_upper_bound; lia).
    lia. }
  assert (C : val / 1000000000 = 1 \/ val / 1000000000 = 2 \/
              val / 1000000000 = 3 \/ val / 1000000000 = 4) by lia.
  destruct C as [C|[C|[C|C]]]; rewrite C.
  - replace (squigit_loop 23 (1 * 1000000000) 0 10) with (Ok 1 : result Z)
      by (vm_compute; reflexivity).
    cbn [bind]. rewrite wrap_small by (change (2 ^ 32) with 4294967296; lia).
    exists 1. split; [reflexivity|lia].
  - replace (squigit_loop 23 (2 * 1000000000) 0 10) with (Ok 1 : result Z)
      by (vm_compute; reflexivity).
    cbn [bind]. rewrite wrap_small by (change (2 ^ 32) with 4294967296; lia).
    exists 1. split; [reflexivity|lia].
  - replace (squigit_loop 23 (3 * 1000000000) 0 10) with (Ok 4 : result Z)
      by (vm_compute; reflexivity).
    cbn [bind]. rewrite wrap_small by (change (2 ^ 32) with 4294967296; lia).
    exists 4. split; [reflexivity|lia].
  - replace (squigit_loop 23 (4 * 1000000000) 0 10) with (Ok 5 : result Z)
      by (vm_compute; reflexivity).
    cbn [bind]. rewrite wrap_small by (change (2 ^ 32) with 4294967296; lia).
    exists 5. split; [reflexivity|lia].
Qed.

(** X4: on every 32-bit value [squigit] returns at most 734, and it returns 0
    only for 0. *)
Theorem squigit_zero_only_at_zero (val : Z) :
  0 <= val < 2 ^ 32 ->
  exists s, squigit val = Ok s /\ 0 <= s <= 734 /\ (s = 0 <-> val = 0).
Proof.
  intros Hval. change (2 ^ 32) with 4294967296 in Hval.
  pose proof (digit_squares_bound 9 val) as Hb.
  change (81 * Z.of_nat 9) with 729 in Hb.
  destruct (Z_lt_ge_dec val 1000000000) as [Hsmall|Hbig].
  - exists (digit_squares 9 val). split; [|split; [lia|]].
    + rewrite squigit_small by (change (10 ^ 9) with 1000000000; lia).
      f_equal. unfold sum_of_squared_digits.
      apply (digit_squares_more 9 val 1).
      change (10 ^ Z.of_nat 9) with 1000000000. lia.
    + split.
      * intros Hz. destruct (Z.eq_dec val 0) as [|Hnz]; [assumption|exfalso].
        assert (0 < digit_squares 9 val); [|lia].
        apply digit_squares_positive.
        change (10 ^ Z.of_nat 9) with 1000000000. lia.
      * intros ->. apply digit_squares_zero.
  - destruct (squigit_ten_digits val) as [r [Hs Hr]];
      [change (2 ^ 32) with 4294967296; lia|].
    exists (digit_squares 9 val + r). split; [exact Hs|]. lia.
Qed.

Lemma squigit_zero_only_at_zero_witness :
  0 <= 3999999999 < 2 ^ 32 /\
  exists s, squigit 3999999999 = Ok s /\ 0 <= s <= 734 /\
            (s = 0 <-> 3999999999 = 0).
Proof. split; [lia|]. apply (squigit_zero_only_at_zero 3999999999). lia. Defined.

Lemma rev_key_range (combo : list Z) :
  Forall digit combo -> 0 <= rev_key combo < 10 ^ Z.of_nat (length combo).
Proof.
  induction 1 as [|d combo Hd Hall IH].
  - cbn. lia.
  - cbn [rev_key fold_right length]. fold (rev_key combo).
    rewrite Nat2Z.inj_succ, Z.pow_succ_r by lia.
    unfold digit in Hd. lia.
Qed.

Lemma digit_squares_rev_key (combo : list Z) :
  Forall digit combo ->
  forall k, (length combo <= k)%nat ->
    digit_squares k (rev_key combo) = sum_of_squares combo.
Proof.
  induction 1 as [|d combo Hd Hall IH]; intros k Hk.
  - cbn [rev_key fold_right sum_of_squares]. apply digit_squares_zero.
  - destruct k as [|k]; [cbn [length] in Hk; lia|].
    cbn [rev_key fold_right sum_of_squares]. fold (rev_key combo).
    fold (sum_of_squares combo).
    replace (d + 10 * rev_key combo) with (10 * rev_key combo + d) by ring.
    rewrite digit_squares_last by (unfold digit in Hd; lia).
    rewrite IH by (cbn [length] in Hk; lia). reflexivity.
Qed.

Lemma squigit_digit (d : Z) : digit d -> squigit d = Ok (d * d).
Proof. intros Hd. split_digit Hd; vm_compute; reflexivity. Qed.

Lemma squigit_val_from (combo : list Z) :
  Forall digit combo ->
  forall acc,
    0 <= acc -> acc + 81 * Z.of_nat (length combo) < 2 ^ 32 ->
    for_each combo (fun num acc => s <- squigit num ;; Ok (wrap (acc + s))) acc
    = Ok (acc + sum_of_squares combo).
Proof.
  induction 1 as [|d combo Hd Hall IH]; intros acc Ha Hb.
  - cbn. rewrite Z.add_0_r. reflexivity.
  - cbn [for_each sum_of_squares fold_right length] in *.
    fold (sum_of_squares combo).
    rewrite Nat2Z.inj_succ in Hb.
    rewrite squigit_digit by exact Hd. cbn [bind].
    unfold digit in Hd.
    rewrite wrap_small by (change (2 ^ 32) with 4294967296 in *; nia).
    rewrite IH by (change (2 ^ 32) with 4294967296 in *; nia).
    f_equal. ring.
Qed.

Lemma sum_of_squares_perm (c1 c2 : list Z) :
  Permutation c1 c2 -> sum_of_squares c1 = sum_of_squares c2.
Proof.
  unfold sum_of_squares.
  induction 1; cbn [fold_right]; lia.
Qed.

(** X5: the digit strategy's [squigit_val] of a list of up to nine digits
    is the sum of the squares of the digits; it is the [squigit] of the
    number written with these digits, and of every number written with the
    same digits in another order. *)
Theorem squigit_of_digits (combo other : list Z) :
  Forall digit combo -> (length combo <= 9)%nat -> Permutation combo other ->
  DigitsMethod.squigit_val combo = Ok (sum_of_squares combo) /\
  squigit (rev_key combo) = DigitsMethod.squigit_val combo /\
  squigit (rev_key other) = DigitsMethod.squigit_val combo.
Proof.
  intros Hd Hlen Hp.
  assert (Hval : DigitsMethod.squigit_val combo = Ok (sum_of_squares combo)).
  { unfold DigitsMethod.squigit_val. rewrite squigit_val_from; try exact Hd.
    - reflexivity.
    - lia.
    - change (2 ^ 32) with 4294967296. lia. }
  assert (Hnum : forall c, Forall digit c -> (length c <= 9)%nat ->
                           squigit (rev_key c) = Ok (sum_of_squares c)).
  { intros c Hc Hl. pose proof (rev_key_range c Hc) as Hr.
    assert (10 ^ Z.of_nat (length c) <= 10 ^ 9)
      by (apply Z.pow_le_mono_r; lia).
    rewrite squigit_small by lia. f_equal.
    unfold sum_of_squared_digits. apply digit_squares_rev_key; [exact Hc|lia]. }
  split; [exact Hval|]. rewrite Hval. split.
  - apply Hnum; assumption.
  - rewrite (sum_of_squares_perm _ _ Hp). apply Hnum.
    + apply (Permutation_Forall Hp Hd).
    + rewrite <- (Permutation_length Hp). exact Hlen.
Qed.

Lemma squigit_of_digits_witness :
  DigitsMethod.squigit_val [7; 5; 0; 0] = Ok (sum_of_squares [7; 5; 0; 0]) /\
  squigit 57 = DigitsMethod.squigit_val [7; 5; 0; 0] /\
  squigit 7005 = DigitsMethod.squigit_val [7; 5; 0; 0].
Proof.
  apply (squigit_of_digits [7; 5; 0; 0] [5; 0; 0; 7]).
  - repeat constructor; unfold digit; lia.
  - cbn. lia.
  - apply (Permutation_cons_append [5; 0; 0] 7).
Defined.

(** ** [fact] and [starting_numbers] *)

Lemma fact_succ_Z (n : nat) :
  Z.of_nat (fact (S n)) = Z.of_nat (S n) * Z.of_nat (fact n).
Proof.
  change (fact (S n)) with (S n * fact n)%nat. apply Nat2Z.inj_mul.
Qed.

Lemma fact_loop_wrap (n : nat) :
  forall ans,
    Z.of_nat (S n) < 2 ^ 32 ->
    DigitsMethod.fact_loop n (Z.of_nat (S n)) (wrap ans)
    = wrap (ans * Z.of_nat (fact (S n))).
Proof.
  induction n as [|n IH]; intros ans Hn.
  - cbn [DigitsMethod.fact_loop]. change (Z.of_nat (fact 1)) with 1.
    rewrite Z.mul_1_r. reflexivity.
  - cbn [DigitsMethod.fact_loop]. rewrite wrap_mul_l.
    replace (wrap (Z.of_nat (S (S n)) - 1)) with (Z.of_nat (S n))
      by (rewrite wrap_small; lia).
    rewrite IH by lia. rewrite (fact_succ_Z (S n)). f_equal. ring.
Qed.

Lemma fact_loop_S (n : nat) (num ans : Z) :
  DigitsMethod.fact_loop (S n) num ans
  = DigitsMethod.fact_loop n (wrap (num - 1)) (wrap (ans * num)).
Proof. reflexivity. Qed.

Lemma fact_loop_zero (n : nat) :
  forall num, DigitsMethod.fact_loop n num 0 = 0.
Proof.
  induction n as [|n IH]; intros num; [reflexivity|].
  cbn [DigitsMethod.fact_loop]. rewrite Z.mul_0_l.
  change (wrap 0) with 0. apply IH.
Qed.

Lemma fact_12_13 :
  Z.of_nat (fact 12) = 479001600 /\ Z.of_nat (fact 13) = 6227020800.
Proof.
  split; rewrite !fact_succ_Z; change (Z.of_nat (fact 0)) with 1;
    vm_compute; reflexivity.
Qed.

Lemma fact_at_zero : DigitsMethod.fact 0 = 0.
Proof.
  unfold DigitsMethod.fact.
  replace (wrap (0 - 1)) with 4294967295 by (vm_compute; reflexivity).
  replace (Z.to_nat 4294967295) with (S (Z.to_nat 4294967294)) by lia.
  rewrite fact_loop_S. change (wrap (1 * 0)) with 0.
  apply fact_loop_zero.
Qed.

Lemma fact_wrap (num : Z) :
  1 <= num < 2 ^ 32 ->
  DigitsMethod.fact num = wrap (Z.of_nat (fact (Z.to_nat num))).
Proof.
  intros Hnum. change (2 ^ 32) with 4294967296 in Hnum.
  unfold DigitsMethod.fact.
  remember (Z.to_nat (num - 1)) as n eqn:En.
  assert (E1 : Z.to_nat (wrap (num - 1)) = n)
    by (rewrite wrap_small; [lia|change (2 ^ 32) with 4294967296; lia]).
  assert (E2 : num = Z.of_nat (S n)) by lia.
  replace (Z.to_nat num) with (S n) by lia.
  rewrite E1, E2. change 1 with (wrap 1).
  rewrite fact_loop_wrap by (change (2 ^ 32) with 4294967296; lia).
  rewrite Z.mul_1_l. reflexivity.
Qed.

Lemma fact_exact (c : nat) :
  (1 <= c <= 12)%nat ->
  DigitsMethod.fact (wrap (Z.of_nat c)) = Z.of_nat (fact c).
Proof.
  intros Hc. destruct fact_12_13 as [H12 _].
  rewrite (wrap_small (Z.of_nat c)) by (change (2 ^ 32) with 4294967296; lia).
  rewrite fact_wrap by (change (2 ^ 32) with 4294967296; lia).
  rewrite Nat2Z.id. apply wrap_small.
  pose proof (fact_le c 12 ltac:(lia)) as Hle.
  change (2 ^ 32) with 4294967296. lia.
Qed.

(** X6: [fact] on every 32-bit value: 0 for 0, where the loop counts [num] down
    through the whole range, and else the factorial modulo 2^32, which is
    the factorial itself exactly up to 12. *)
Theorem fact_modular (num : Z) :
  0 <= num < 2 ^ 32 ->
  DigitsMethod.fact num
  = (if num =? 0 then 0 else Z.of_nat (fact (Z.to_nat num)) mod 2 ^ 32) /\
  (DigitsMethod.fact num = Z.of_nat (fact (Z.to_nat num)) <-> 1 <= num <= 12).
Proof.
  intros Hnum. change (2 ^ 32) with 4294967296 in Hnum.
  destruct fact_12_13 as [H12 H13].
  destruct (Z.eqb_spec num 0) as [->|Hnz].
  - rewrite fact_at_zero. split; [reflexivity|].
    change (Z.of_nat (fact (Z.to_nat 0))) with 1. lia.
  - rewrite fact_wrap by (change (2 ^ 32) with 4294967296; lia).
    split; [reflexivity|].
    unfold wrap, u32_modulus. change (2 ^ 32) with 4294967296.
    split.
    + intros Heq. destruct (Z_le_gt_dec num 12) as [|Hgt]; [lia|exfalso].
      pose proof (fact_le 13 (Z.to_nat num) ltac:(lia)) as Hle.
      pose proof (Z.mod_pos_bound (Z.of_nat (fact (Z.to_nat num))) 4294967296
                    ltac:(lia)) as Hb.
      lia.
    + intros Hr. apply Z.mod_small.
      pose proof (fact_le (Z.to_nat num) 12 ltac:(lia)) as Hle.
      lia.
Qed.

Lemma fact_modular_witness :
  0 <= 13 < 2 ^ 32 /\
  (DigitsMethod.fact 13 = Z.of_nat (fact (Z.to_nat 13)) <-> 1 <= 13 <= 12).
Proof. split; [lia|]. apply (fact_modular 13). lia. Defined.

Lemma divide_step_exact (duplicates : list Z) (i sn : Z) (c : nat) :
  vec_get duplicates i = Ok (Z.of_nat c) -> (c <= 12)%nat ->
  DigitsMethod.divide_step duplicates i sn = Ok (sn / Z.of_nat (fact c)).
Proof.
  intros Hget Hc. unfold DigitsMethod.divide_step. rewrite Hget. cbn [bind].
  destruct (Z.ltb_spec 0 (Z.of_nat c)) as [Hpos|Hzero].
  - rewrite fact_exact by lia.
    pose proof (lt_O_fact c) as Hf.
    destruct (Z.eqb_spec (Z.of_nat (fact c)) 0); [lia|reflexivity].
  - assert (c = 0%nat) by lia. subst c.
    change (Z.of_nat (fact 0)) with 1. rewrite Z.div_1_r. reflexivity.
Qed.

(** X7: for a list of up to twelve digits [starting_numbers] is the number of
    arrangements of the list, the factorial of its length divided without
    remainder by the product of the factorials of the repeat counts; only
    for the empty list it is 0, not 1. *)
Theorem starting_numbers_up_to_12 (combo : list Z) :
  Forall digit combo -> (length combo <= 12)%nat ->
  DigitsMethod.starting_numbers combo
  = Ok (if (length combo =? 0)%nat then 0 else multiset_permutations combo) /\
  multiset_permutations combo * factorial_product combo
  = Z.of_nat (fact (length combo)).
Proof.
  intros Hall Hlen.
  split; [|apply multiset_permutations_exact; exact Hall].
  assert (Hc : forall d, (repeat_count combo d <= 12)%nat).
  { intros d. unfold repeat_count.
    pose proof (count_occ_bound Z.eq_dec d combo). lia. }
  unfold DigitsMethod.starting_numbers.
  rewrite count_duplicates_counts by exact Hall. cbn [bind].
  unfold for_range. change (Z.to_nat (10 - 0)) with 10%nat.
  cbn [map DigitsMethod.nums].
  repeat (rewrite for_loop_S;
          erewrite divide_step_exact by (try reflexivity; apply Hc);
          cbn [bind]).
  cbn [for_loop]. f_equal.
  repeat (rewrite Z.div_div;
          [|match goal with
            | |- Z.of_nat (fact ?n) <> 0 => pose proof (fact_pos n); lia
            end
           |repeat apply Z.mul_pos_pos; apply fact_pos]).
  destruct (Nat.eqb_spec (length combo) 0) as [Hz|Hnz].
  - rewrite Hz. change (wrap (Z.of_nat 0)) with 0.
    rewrite fact_at_zero. apply Z.div_0_l.
    pose proof (fact_pos (repeat_count combo 0)).
    assert (0 < Z.of_nat (fact (repeat_count combo 1)) *
                (Z.of_nat (fact (repeat_count combo 2)) *
                 (Z.of_nat (fact (repeat_count combo 3)) *
                  (Z.of_nat (fact (repeat_count combo 4)) *
                   (Z.of_nat (fact (repeat_count combo 5)) *
                    (Z.of_nat (fact (repeat_count combo 6)) *
                     (Z.of_nat (fact (repeat_count combo 7)) *
                      (Z.of_nat (fact (repeat_count combo 8)) *
                       Z.of_nat (fact (repeat_count combo 9))))))))))
      by (repeat apply Z.mul_pos_pos; apply fact_pos).
    nia.
  - rewrite fact_exact by lia.
    unfold multiset_permutations, factorial_product.
    cbn [fold_right DigitsMethod.nums]. rewrite Z.mul_1_r. reflexivity.
Qed.

Lemma starting_numbers_up_to_12_witness :
  Forall digit [1; 1; 2] /\ (length [1; 1; 2] <= 12)%nat /\
  DigitsMethod.starting_numbers [1; 1; 2]
  = Ok (if (length [1; 1; 2] =? 0)%nat then 0
        else multiset_permutations [1; 1; 2]).
Proof.
  assert (H1 : Forall digit [1; 1; 2])
    by (repeat constructor; unfold digit; lia).
  assert (H2 : (length [1; 1; 2] <= 12)%nat) by (cbn; lia).
  split; [exact H1|]. split; [exact H2|].
  exact (proj1 (starting_numbers_up_to_12 [1; 1; 2] H1 H2)).
Defined.

Lemma count_step_length (x : Z) (duplicates duplicates' : list Z) :
  DigitsMethod.count_step x duplicates = Ok duplicates' ->
  length duplicates' = length duplicates.
Proof.
  unfold DigitsMethod.count_step, vec_set. intros H.
  destruct (vec_get duplicates x) as [d|e]; [|discriminate]. cbn [bind] in H.
  destruct (Z.to_nat x <? length duplicates)%nat; [|discriminate].
  injection H as <-. apply list_update_length.
Qed.

Lemma count_duplicates_out_of_range (combo : list Z) :
  Exists (fun x => 10 <= x) combo ->
  forall duplicates,
    length duplicates = 10%nat ->
    for_each combo DigitsMethod.count_step duplicates = Err OutOfBounds.
Proof.
  induction combo as [|x combo IH]; intros Hex duplicates Hlen.
  - inversion Hex.
  - cbn [for_each].
    destruct (DigitsMethod.count_step x duplicates) as [duplicates'|e] eqn:E.
    + cbn [bind]. apply IH.
      * inversion Hex as [? ? Hx|? ? Hrest]; subst; [|exact Hrest].
        exfalso. unfold DigitsMethod.count_step, vec_get in E.
        assert (Hn : nth_error duplicates (Z.to_nat x) = None)
          by (apply nth_error_None; lia).
        rewrite Hn in E. discriminate.
      * rewrite (count_step_length _ _ _ E). exact Hlen.
    + cbn [bind]. f_equal.
      unfold DigitsMethod.count_step, vec_get, vec_set in E.
      destruct (nth_error duplicates (Z.to_nat x)); cbn [bind] in E.
      * destruct (Z.to_nat x <? length duplicates)%nat; congruence.
      * congruence.
Qed.

(** X8: the array [duplicates] has ten slots: a list with an element above 9
    makes [starting_numbers] index it out of bounds. *)
Theorem starting_numbers_needs_digits (combo : list Z) :
  Exists (fun x => 10 <= x) combo ->
  DigitsMethod.starting_numbers combo = Err OutOfBounds.
Proof.
  intros Hex. unfold DigitsMethod.starting_numbers, DigitsMethod.count_duplicates.
  rewrite count_duplicates_out_of_range; [reflexivity|exact Hex|reflexivity].
Qed.

Lemma starting_numbers_needs_digits_witness :
  DigitsMethod.starting_numbers [1; 2; 10; 3] = Err OutOfBounds.
Proof.
  apply (starting_numbers_needs_digits [1; 2; 10; 3]).
  apply Exists_cons_tl, Exists_cons_tl, Exists_cons_hd. lia.
Defined.

(** ** [remove_element] and [combination] on any list *)

(** X9: [remove_element] deletes the first occurrence of [val] and nothing
    else; a list without [val] comes back unchanged. *)
Theorem remove_element_first (nums : list Z) (val : Z) :
  (~ In val nums -> DigitsMethod.remove_element nums val = nums) /\
  (forall l1 l2, nums = l1 ++ val :: l2 -> ~ In val l1 ->
     DigitsMethod.remove_element nums val = l1 ++ l2).
Proof.
  split.
  - induction nums as [|x nums IH]; intros Hout; [reflexivity|].
    cbn [DigitsMethod.remove_element].
    destruct (Z.eqb_spec x val) as [->|Hne].
    + exfalso. apply Hout. left. reflexivity.
    + f_equal. apply IH. intros Hin. apply Hout. right. exact Hin.
  - intros l1. revert nums.
    induction l1 as [|x l1 IH]; intros nums l2 -> Hout.
    + apply remove_element_head.
    + cbn [app DigitsMethod.remove_element].
      destruct (Z.eqb_spec x val) as [->|Hne].
      * exfalso. apply Hout. left. reflexivity.
      * f_equal. apply (IH _ l2 eq_refl).
        intros Hin. apply Hout. right. exact Hin.
Qed.

Lemma remove_element_first_witness :
  DigitsMethod.remove_element [3; 1; 4; 1; 5] 1 = [3] ++ [4; 1; 5].
Proof.
  apply (proj2 (remove_element_first [3; 1; 4; 1; 5] 1) [3] [4; 1; 5]).
  - reflexivity.
  - cbn. lia.
Defined.

Lemma remove_element_incl (nums : list Z) (val : Z) :
  incl (DigitsMethod.remove_element nums val) nums.
Proof.
  induction nums as [|x nums IH]; [apply incl_refl|].
  cbn [DigitsMethod.remove_element]. destruct (x =? val).
  - apply incl_tl, incl_refl.
  - intros y [<-|Hy]; [left; reflexivity|right; apply IH; exact Hy].
Qed.

Section CombinationShape.

Variable sub : list Z -> result (list (list Z)).
Variable k : nat.
Variable all : list Z.

Hypothesis sub_shape :
  forall E cs, sub E = Ok cs ->
    forall c, In c cs -> length c = k /\ incl c E.

Lemma combination_loop_shape :
  forall elements to_use acc res,
    incl elements all -> incl to_use all ->
    (forall c, In c acc -> length c = S k /\ incl c all) ->
    DigitsMethod.combination_loop sub elements to_use acc = Ok res ->
    forall c, In c res -> length c = S k /\ incl c all.
Proof.
  induction elements as [|e rest IH]; intros to_use acc res He Hu Hacc H.
  - injection H as <-. exact Hacc.
  - cbn [DigitsMethod.combination_loop] in H.
    destruct (sub to_use) as [combos|err] eqn:Hsub; [|discriminate].
    cbn [bind] in H. revert H. apply IH.
    + intros x Hx. apply He. right. exact Hx.
    + intros x Hx. apply Hu. apply (remove_element_incl _ _ _ Hx).
    + intros c Hc. apply in_app_or in Hc. destruct Hc as [Hc|Hc].
      * apply Hacc. exact Hc.
      * apply in_map_iff in Hc. destruct Hc as [c' [<- Hc']].
        destruct (sub_shape _ _ Hsub c' Hc') as [Hl Hi].
        split.
        -- rewrite length_app. cbn [length]. lia.
        -- intros x Hx. apply in_app_or in Hx.
           destruct Hx as [Hx|[<-|[]]].
           ++ apply Hu, Hi. exact Hx.
           ++ apply He. left. reflexivity.
Qed.

End CombinationShape.

Lemma combination_in_elements (fuel : nat) :
  forall elements r cs,
    1 <= r < 2 ^ 32 ->
    DigitsMethod.combination fuel elements r = Ok cs ->
    forall c, In c cs -> Z.of_nat (length c) = r /\ incl c elements.
Proof.
  induction fuel as [|fuel IH]; intros elements r cs Hr H c Hc;
    rewrite combination_unfold in H;
    (destruct (Z.eqb_spec r 1) as [->|Hne];
     [injection H as <-; apply in_map_iff in Hc;
      destruct Hc as [x [<- Hx]]; split;
      [reflexivity|intros y [<-|[]]; exact Hx]|]).
  - destruct (combination_loop_shape (fun _ => Err OutOfFuel)
                (Z.to_nat (r - 1)) elements) with
      (elements := elements) (to_use := elements)
      (acc := @nil (list Z)) (res := cs) (c := c) as [Hl Hi];
      try assumption; try apply incl_refl.
    + intros E cs' Hd. discriminate.
    + intros c' [].
    + split; [lia|exact Hi].
  - assert (Hw : wrap (r - 1) = r - 1) by (apply wrap_small; lia).
    rewrite Hw in H.
    destruct (combination_loop_shape
                (fun e => DigitsMethod.combination fuel e (r - 1))
                (Z.to_nat (r - 1)) elements) with
      (elements := elements) (to_use := elements)
      (acc := @nil (list Z)) (res := cs) (c := c) as [Hl Hi];
      try assumption; try apply incl_refl.
    + intros E cs' Hcs' c' Hc'.
      destruct (IH E (r - 1) cs' ltac:(lia) Hcs' c' Hc') as [Hl Hi].
      split; [lia|exact Hi].
    + intros c' [].
    + split; [lia|exact Hi].
Qed.

(** X10: every combination that [combination] returns has [r] elements, all
    taken from [elements]. *)
Theorem combination_shape (fuel : nat) (elements : list Z) (r : Z)
    (cs : list (list Z)) :
  1 <= r < 2 ^ 32 ->
  DigitsMethod.combination fuel elements r = Ok cs ->
  forall c, In c cs -> Z.of_nat (length c) = r /\ incl c elements.
Proof. apply combination_in_elements. Qed.

Lemma combination_shape_witness :
  Z.of_nat (length [2; 1]) = 2 /\ incl [2; 1] [1; 2].
Proof.
  apply (combination_shape 1 [1; 2] 2 [[1; 1]; [2; 1]; [2; 2]]).
  - lia.
  - reflexivity.
  - right. left. reflexivity.
Defined.




(** X12: [combination] needs [r - 1] nested calls on a non-empty list: with
    fewer it has not returned.  For [r = 0] the count [r - 1] wraps around
    to 2^32 - 1. *)
Theorem combination_depth (fuel : nat) :
  forall elements r,
    elements <> [] -> 0 <= r < 2 ^ 32 ->
    Z.of_nat fuel < wrap (r - 1) ->
    DigitsMethod.combination fuel elements r = Err OutOfFuel.
Proof.
  induction fuel as [|fuel IH]; intros elements r Hne Hr Hfuel;
    rewrite combination_unfold;
    (destruct (Z.eqb_spec r 1) as [->|Hr1];
     [change (wrap (1 - 1)) with 0 in Hfuel; lia|]);
    (destruct elements as [|e rest]; [contradiction|]);
    cbn [DigitsMethod.combination_loop].
  - reflexivity.
  - pose proof (wrap_range (r - 1)) as Hw.
    rewrite IH; [reflexivity|discriminate|exact Hw|].
    rewrite wrap_small; lia.
Qed.

Lemma combination_depth_witness :
  DigitsMethod.combination 5 DigitsMethod.nums 0 = Err OutOfFuel.
Proof.
  apply (combination_depth 5 DigitsMethod.nums 0).
  - discriminate.
  - lia.
  - vm_compute. reflexivity.
Defined.

(** ** How many combinations, and no multiset twice *)

Lemma multiset_count_S (k n : nat) :
  multiset_count (S k) (S n)
  = (multiset_count k (S n) + multiset_count (S k) n)%nat.
Proof. reflexivity. Qed.

Lemma combination_loop_length (sub : list Z -> result (list (list Z)))
    (k : nat) :
  (forall E cs, sub E = Ok cs -> length cs = multiset_count k (length E)) ->
  forall elements acc res,
    DigitsMethod.combination_loop sub elements elements acc = Ok res ->
    length res = (length acc + multiset_count (S k) (length elements))%nat.
Proof.
  intros Hsub. induction elements as [|e rest IH]; intros acc res H.
  - injection H as <-. cbn. lia.
  - cbn [DigitsMethod.combination_loop] in H.
    destruct (sub (e :: rest)) as [combos|err] eqn:E; [|discriminate].
    cbn [bind] in H. rewrite remove_element_head in H.
    apply IH in H. rewrite H, length_app, length_map, (Hsub _ _ E).
    cbn [length]. rewrite multiset_count_S. lia.
Qed.

Lemma combination_length (k : nat) :
  forall fuel elements cs,
    Z.of_nat (S k) < 2 ^ 32 ->
    DigitsMethod.combination fuel elements (Z.of_nat (S k)) = Ok cs ->
    length cs = multiset_count k (length elements).
Proof.
  induction k as [|k IH]; intros fuel elements cs Hk H;
    rewrite combination_unfold in H.
  - change (Z.of_nat 1 =? 1) with true in H. cbv iota in H.
    injection H as <-. apply length_map.
  - destruct (Z.eqb_spec (Z.of_nat (S (S k))) 1) as [Heq|_]; [lia|].
    replace (wrap (Z.of_nat (S (S k)) - 1)) with (Z.of_nat (S k)) in H
      by (rewrite wrap_small; lia).
    destruct fuel as [|fuel].
    + destruct elements as [|e rest]; [injection H as <-; reflexivity|].
      discriminate.
    + apply (combination_loop_length _ k) in H; [exact H|].
      intros E cs' Hcs'. apply (IH fuel); [lia|exact Hcs'].
Qed.

Lemma multiset_count_fact (k : nat) :
  forall n,
    (multiset_count k (S n) * fact (S k) * fact n = fact (n + k + 1))%nat.
Proof.
  induction k as [|k IHk]; intros n.
  - cbn [multiset_count]. change (fact 1) with 1%nat.
    replace (n + 0 + 1)%nat with (S n) by lia.
    change (fact (S n)) with (S n * fact n)%nat. lia.
  - induction n as [|n IHn].
    + rewrite multiset_count_S.
      assert (H1 : multiset_count k 1 = 1%nat).
      { specialize (IHk 0%nat). change (fact 0) with 1%nat in IHk.
        replace (0 + k + 1)%nat with (S k) in IHk by lia.
        pose proof (lt_O_fact (S k)). nia. }
      rewrite H1. change (multiset_count (S k) 0) with 0%nat.
      change (fact 0) with 1%nat.
      replace (0 + S k + 1)%nat with (S (S k)) by lia. lia.
    + rewrite multiset_count_S.
      specialize (IHk (S n)).
      replace (S n + k + 1)%nat with (n + S k + 1)%nat in IHk by lia.
      replace (S n + S k + 1)%nat with (S (n + S k + 1)) by lia.
      remember (fact (n + S k + 1)) as T eqn:ET.
      change (fact (S (n + S k + 1))) with (S (n + S k + 1) * fact (n + S k + 1))%nat.
      rewrite <- ET.
      change (fact (S (S k))) with (S (S k) * fact (S k))%nat in *.
      change (fact (S n)) with (S n * fact n)%nat in *.
      nia.
Qed.

(** X13: the number of combinations is the number of multisets of [r] out of
    [length elements]: times [r!] and [(length elements - 1)!] it is
    [(length elements + r - 1)!]. *)
Theorem combination_count (fuel : nat) (elements : list Z) (r : Z)
    (cs : list (list Z)) :
  1 <= r < 2 ^ 32 -> elements <> [] ->
  DigitsMethod.combination fuel elements r = Ok cs ->
  (length cs * fact (Z.to_nat r) * fact (length elements - 1)
   = fact (length elements + Z.to_nat r - 1))%nat.
Proof.
  intros Hr Hne H.
  replace r with (Z.of_nat (S (Z.to_nat (r - 1)))) in H by lia.
  apply combination_length in H; [|lia].
  destruct elements as [|e rest]; [contradiction|].
  cbn [length] in *. rewrite H.
  replace (Z.to_nat r) with (S (Z.to_nat (r - 1))) by lia.
  replace (S (length rest) - 1)%nat with (length rest) by lia.
  replace (S (length rest) + S (Z.to_nat (r - 1)) - 1)%nat
    with (length rest + Z.to_nat (r - 1) + 1)%nat by lia.
  apply multiset_count_fact.
Qed.

Lemma combination_count_witness :
  (length [[1; 1]; [2; 1]; [2; 2]] * fact (Z.to_nat 2) * fact (length [1; 2] - 1)
   = fact (length [1; 2] + Z.to_nat 2 - 1))%nat.
Proof.
  apply (combination_count 1 [1; 2] 2 [[1; 1]; [2; 1]; [2; 2]]).
  - lia.
  - discriminate.
  - reflexivity.
Defined.

Lemma ForallOrdPairs_app {A : Type} (R : A -> A -> Prop) (l1 l2 : list A) :
  ForallOrdPairs R l1 -> ForallOrdPairs R l2 ->
  (forall a b, In a l1 -> In b l2 -> R a b) ->
  ForallOrdPairs R (l1 ++ l2).
Proof.
  intros H1 H2 Hc. induction H1 as [|a l1 Ha H1 IH]; [exact H2|].
  cbn [app]. constructor.
  - apply Forall_app. split; [exact Ha|].
    apply Forall_forall. intros b Hb. apply Hc; [left; reflexivity|exact Hb].
  - apply IH. intros x y Hx Hy. apply Hc; [right; exact Hx|exact Hy].
Qed.

Lemma ForallOrdPairs_map {A B : Type} (R : A -> A -> Prop)
    (R' : B -> B -> Prop) (f : A -> B) (l : list A) :
  (forall a b, R a b -> R' (f a) (f b)) ->
  ForallOrdPairs R l -> ForallOrdPairs R' (map f l).
Proof.
  intros Hf H. induction H as [|a l Ha H IH]; cbn [map]; constructor.
  - apply Forall_map. revert Ha. apply Forall_impl. intros b. apply Hf.
  - exact IH.
Qed.

Lemma NoDup_ForallOrdPairs_neq {A : Type} (l : list A) :
  NoDup l -> ForallOrdPairs (fun a b => a <> b) l.
Proof.
  induction 1 as [|a l Ha Hl IH]; constructor; [|exact IH].
  apply Forall_forall. intros b Hb ->. contradiction.
Qed.

Section CombinationDistinct.

Variable sub : list Z -> result (list (list Z)).

Hypothesis sub_distinct :
  forall E cs, NoDup E -> sub E = Ok cs ->
    ForallOrdPairs different_multisets cs /\
    forall c, In c cs -> incl c E.

Lemma combination_loop_distinct :
  forall elements acc res,
    NoDup elements ->
    ForallOrdPairs different_multisets acc ->
    (forall c, In c acc -> exists x, In x c /\ ~ In x elements) ->
    DigitsMethod.combination_loop sub elements elements acc = Ok res ->
    ForallOrdPairs different_multisets res.
Proof.
  induction elements as [|e rest IH]; intros acc res Hnd Hacc Hold H.
  - injection H as <-. exact Hacc.
  - cbn [DigitsMethod.combination_loop] in H.
    destruct (sub (e :: rest)) as [combos|err] eqn:E; [|discriminate].
    cbn [bind] in H. rewrite remove_element_head in H.
    destruct (sub_distinct _ _ Hnd E) as [Hd Hin].
    inversion Hnd as [|? ? He Hrest]; subst.
    revert H. apply IH; [exact Hrest| |].
    + apply ForallOrdPairs_app; [exact Hacc| |].
      * revert Hd. apply ForallOrdPairs_map.
        intros a b Hab Hp. apply Hab.
        apply (Permutation_app_inv_r _ _ _ Hp).
      * intros a b Ha Hb Hp.
        destruct (Hold a Ha) as [x [Hx Hout]]. apply Hout.
        apply in_map_iff in Hb. destruct Hb as [c [<- Hc]].
        apply (Permutation_in _ Hp) in Hx. apply in_app_or in Hx.
        destruct Hx as [Hx|[<-|[]]]; [apply (Hin c Hc); exact Hx|].
        left. reflexivity.
    + intros c Hc. apply in_app_or in Hc. destruct Hc as [Hc|Hc].
      * destruct (Hold c Hc) as [x [Hx Hout]]. exists x.
        split; [exact Hx|]. intros Hr. apply Hout. right. exact Hr.
      * apply in_map_iff in Hc. destruct Hc as [c' [<- Hc']].
        exists e. split; [|exact He].
        apply in_or_app. right. left. reflexivity.
Qed.

End CombinationDistinct.

(** X14: on a list without repeated elements no two of the combinations that
    [combination] returns are the same multiset. *)
Theorem combination_distinct (fuel : nat) :
  forall elements r cs,
    NoDup elements -> 1 <= r < 2 ^ 32 ->
    DigitsMethod.combination fuel elements r = Ok cs ->
    ForallOrdPairs different_multisets cs.
Proof.
  induction fuel as [|fuel IH]; intros elements r cs Hnd Hr H;
    pose proof H as H0; rewrite combination_unfold in H;
    (destruct (Z.eqb_spec r 1) as [->|Hne];
     [injection H as <-;
      apply (ForallOrdPairs_map (fun a b : Z => a <> b));
      [intros a b Hab Hp; apply Hab;
       apply Permutation_length_1_inv in Hp; congruence
      |apply NoDup_ForallOrdPairs_neq; exact Hnd]|]).
  - destruct elements as [|e rest]; [injection H as <-; constructor|].
    discriminate.
  - rewrite (wrap_small (r - 1)) in H by lia.
    revert H.
    apply (combination_loop_distinct
             (fun e => DigitsMethod.combination fuel e (r - 1)));
      [|exact Hnd|constructor|intros c []].
    intros E cs' HE Hcs'. split.
    + apply (IH E (r - 1) cs' HE ltac:(lia) Hcs').
    + intros c Hc.
      apply (combination_in_elements fuel E (r - 1) cs' ltac:(lia) Hcs' c Hc).
Qed.

Lemma combination_distinct_witness :
  ForallOrdPairs different_multisets combinations_7.
Proof.
  apply (combination_distinct 6 DigitsMethod.nums 7 combinations_7).
  - repeat constructor; cbn; lia.
  - lia.
  - apply combination_nums_7. lia.
Defined.

(** ** One iteration of the cached strategy on sound caches *)

(** X15: from caches of 568 elements in which every marked value has the verdict
    of its cache, one iteration of the loop returns, leaves the caches so,
    marks no value in both, and counts [i] exactly when the table says that
    [squigit i] does not reach 1. *)
Theorem cached_body_keeps_caches (fuel : nat) (i : Z)
    (st : BruteForceMethodCached.state) :
  (chain_fuel <= fuel)%nat -> 1 <= i < 10000000 -> caches_sound st ->
  exists st',
    BruteForceMethodCached.body fuel i st = Ok st' /\
    caches_sound st' /\
    (forall n,
       nth_error (BruteForceMethodCached.numbers_that_goto_89 st') n = Some true ->
       nth_error (BruteForceMethodCached.numbers_that_goto_1 st') n = Some true ->
       False) /\
    BruteForceMethodCached.numbers_ending_with_89 st'
    = wrap (BruteForceMethodCached.numbers_ending_with_89 st
            + reaches_89 (digit_squares 7 i)).
Proof.
  intros Hf Hi Hst.
  destruct (cached_body_sound fuel i st Hf ltac:(unfold TEN_MILLION; lia) Hst)
    as [st' [Hb [Hs Hc]]].
  exists st'. split; [exact Hb|]. split; [exact Hs|]. split; [|exact Hc].
  intros n H89 H1.
  destruct Hs as [[_ Hm89] [[_ Hm1] _]].
  pose proof (Hm89 n H89) as Ha. pose proof (Hm1 n H1) as Hb'.
  rewrite Ha in Hb'. discriminate.
Qed.

Lemma cached_body_keeps_caches_witness :
  exists st',
    BruteForceMethodCached.body 12 44 resized_state = Ok st' /\
    caches_sound st'.
Proof.
  destruct (cached_body_keeps_caches 12 44 resized_state) as [st' [H1 [H2 _]]].
  - unfold chain_fuel. lia.
  - lia.
  - exact resized_state_sound.
  - exists st'. split; assumption.
Defined.
